(** * A genetic-algorithm solver for the 0/1 knapsack problem

    Shallow embedding of [knapsack.cpp] and the properties of its
    operations: fitness, mutation, crossover, random generation,
    selection, breeding and the solver loop.

    The program is modelled as it is written. [int] arithmetic wraps at 32
    bits; a vector is a list, and an access outside it is an error, as are
    a draw from an empty range and a vector of negative size. The random
    generator is an oracle threaded through the operations that draw from
    it, [std::sort] is any function that meets its contract.

    Main results: the fitness is the selected value or 0
    ([fitness_value_or_zero]); crossover splits at the drawn index
    ([crossover_boundary]); random individuals are feasible
    ([initial_population_feasible]); selection returns the [popSize]
    fittest in order ([selection_ordering]). Breeding pads its pool with
    empty individuals ([breed_padded]), and the selection that follows
    reads them past their end, so a run that iterates stops there
    ([solve_stops_at_selection]). *)

From stdpp Require Import base numbers list sorting.
From Stdlib Require Import ZArith Lia.

Local Open Scope Z_scope.

(** ** Machine integers

    [int] is 32 bits wide; a value that leaves the range wraps around.
    [std::size_t] is 64 bits wide and unsigned. *)

Definition INT_MIN : Z := - 2 ^ 31.
Definition INT_MAX : Z := 2 ^ 31 - 1.

Definition to_int (z : Z) : Z := (z + 2 ^ 31) mod 2 ^ 32 - 2 ^ 31.

Definition to_size_t (z : Z) : Z := z mod 2 ^ 64.

Definition in_int (z : Z) : Prop := INT_MIN <= z <= INT_MAX.

(** The conversion of [bool] to [int] in [items[i].value * ind[i]]. *)
Definition bool_to_int (b : bool) : Z := if b then 1 else 0.

(** ** Failures

    What the C++ program leaves undefined, or answers with an exception
    nobody catches, is an error of the model. *)

Inductive error : Set :=
  | OutOfBounds   (* an index past the end of a vector *)
  | EmptyRange    (* a draw from a distribution whose bounds are inverted *)
  | LengthError.  (* a vector asked to hold more than max_size elements *)

Inductive result (A : Type) : Type :=
  | Ok (a : A)
  | Err (e : error).

Arguments Ok {A} a.
Arguments Err {A} e.

Definition bind {A B} (c : result A) (k : A -> result B) : result B :=
  match c with
  | Ok a => k a
  | Err e => Err e
  end.

Declare Scope res_scope.
Delimit Scope res_scope with res.
Notation "'let*' x ':=' c 'in' k" := (bind c (fun x => k))
  (at level 10, x name, c at level 100, k at level 200) : res_scope.

(** ** Vectors

    [std::vector] as a list; [operator[]] with an index outside the
    vector is an error. Indices arrive as integers already converted to
    [std::size_t], so a negative [int] is far past the end. *)

Definition vec_get {A} (v : list A) (i : Z) : result A :=
  if decide (0 <= i) then
    match v !! Z.to_nat i with
    | Some x => Ok x
    | None => Err OutOfBounds
    end
  else Err OutOfBounds.

Definition vec_set {A} (v : list A) (i : Z) (x : A) : result (list A) :=
  if decide (0 <= i < Z.of_nat (length v)) then Ok (<[Z.to_nat i := x]> v)
  else Err OutOfBounds.

(** [v.resize(n)]: the first [n] elements are kept, and the vector is
    padded with value-initialised elements [d] up to [n]. *)
Definition vec_resize {A} (d : A) (n : nat) (v : list A) : list A :=
  take n v ++ replicate (n - length v) d.

(** [for (i = lo; ...; ++i) body], run for [n] rounds. *)
Fixpoint for_range {S} (n : nat) (i : Z) (body : Z -> S -> result S) (s : S)
  : result S :=
  match n with
  | O => Ok s
  | S n' => (let* s' := body i s in for_range n' (i + 1) body s')%res
  end.

(** [mapM] in the error monad, left to right. *)
Fixpoint traverse {A B} (f : A -> result B) (l : list A) : result (list B) :=
  match l with
  | [] => Ok []
  | x :: l' =>
      (let* y := f x in let* ys := traverse f l' in Ok (y :: ys))%res
  end.

(** ** The random source

    [std::mt19937] together with the algorithm of
    [std::uniform_int_distribution] is an oracle: an unknown sequence of
    integers, read one per draw and reduced into the range of the
    distribution. Every sequence of in-range results is the outcome of
    some oracle, so a statement for all oracles is a statement for all
    random choices. *)

Record Rng := MkRng { raw : nat -> Z; pos : nat }.

Definition rng_of (l : list Z) : Rng :=
  MkRng (fun n => default 0 (l !! n)) 0.

Definition advance (g : Rng) : Rng := MkRng (raw g) (S (pos g)).

Record Distribution := MkDist { dist_a : Z; dist_b : Z }.

(** A computation that draws random numbers and may fail. *)
Definition M (A : Type) : Type := Rng -> result (A * Rng).

Definition ret {A} (a : A) : M A := fun g => Ok (a, g).

Definition bindM {A B} (c : M A) (k : A -> M B) : M B :=
  fun g => match c g with
           | Ok (a, g') => k a g'
           | Err e => Err e
           end.

Definition lift {A} (c : result A) : M A :=
  fun g => match c with
           | Ok a => Ok (a, g)
           | Err e => Err e
           end.

Declare Scope rand_scope.
Delimit Scope rand_scope with rand.
Notation "'let*' x ':=' c 'in' k" := (bindM c (fun x => k))
  (at level 10, x name, c at level 100, k at level 200) : rand_scope.

(** [dist(rng)]. The standard asks for [a <= b] when the distribution is
    built; the implementations store the bounds as they come, and the
    model does the same: it is the draw from an inverted range that has no
    defined result. *)
Definition draw (d : Distribution) : M Z :=
  fun g =>
    if decide (dist_a d <= dist_b d) then
      Ok (dist_a d + raw g (pos g) mod (dist_b d - dist_a d + 1), advance g)
    else Err EmptyRange.

(** ** The data model *)

Record Item := MkItem { value : Z; weight : Z }.

(** [using Individual = std::vector<bool>] and
    [using Population = std::vector<Individual>] are aliases. *)
Abbreviation Individual := (list bool).
Abbreviation Population := (list (list bool)).

Record KnapsackSolver := MkSolver {
  items : list Item;
  capacity : Z;
  popSize : Z;
  maxIterations : Z;
  breedingDistribution : Distribution;
  populationDistribution : Distribution
}.

(** The member initialisers of the constructor. [items.size() - 1] is
    computed in [std::size_t] and converted to [int]. *)
Definition init_solver (its : list Item) (cap pop maxit : Z)
  : KnapsackSolver :=
  {| items := its;
     capacity := cap;
     popSize := pop;
     maxIterations := maxit;
     breedingDistribution :=
       MkDist 0 (to_int (to_size_t (Z.of_nat (length its) - 1)));
     populationDistribution := MkDist 0 (to_int (pop - 1)) |}.

(** The constructor has an empty body: it checks nothing and cannot
    fail. It is given the type of a fallible computation to say so. *)
Definition construct (its : list Item) (cap pop maxit : Z)
  : result KnapsackSolver :=
  Ok (init_solver its cap pop maxit).

(** ** [std::sort]

    The algorithm is the library's; the standard fixes its contract only.
    Given a comparator that is a strict weak ordering on the elements, the
    result is a rearrangement of the input in which no element is ordered
    before an earlier one. The order of equivalent elements is left open,
    so the solver is stated for any sort that meets the contract. *)

Record StrictWeakOn {A} (lt : A -> A -> bool) (l : list A) : Prop := {
  swo_irrefl : forall x, x ∈ l -> lt x x = false;
  swo_trans : forall x y z, x ∈ l -> y ∈ l -> z ∈ l ->
    lt x y = true -> lt y z = true -> lt x z = true;
  swo_equiv : forall x y z, x ∈ l -> y ∈ l -> z ∈ l ->
    lt x y = false -> lt y x = false ->
    lt y z = false -> lt z y = false ->
    lt x z = false /\ lt z x = false
}.

Class StdSort := {
  std_sort : forall {A}, (A -> A -> bool) -> list A -> list A;
  std_sort_perm : forall A (lt : A -> A -> bool) (l : list A),
    std_sort lt l ≡ₚ l;
  std_sort_sorted : forall A (lt : A -> A -> bool) (l : list A),
    StrictWeakOn lt l ->
    StronglySorted (fun x y => lt y x = false) (std_sort lt l)
}.

(** ** The solver *)

Section Solver.

Context `{StdSort}.

Variable s : KnapsackSolver.

(** *** Fitness *)

Definition fitness_body (ind : Individual) (i : Z) (acc : Z * Z)
  : result (Z * Z) :=
  (let* it := vec_get (items s) i in
   let* b := vec_get ind i in
   Ok (to_int (acc.1 + to_int (value it * bool_to_int b)),
       to_int (acc.2 + to_int (weight it * bool_to_int b))))%res.

Definition fitness (ind : Individual) : result Z :=
  let end_ := to_int (Z.of_nat (length (items s))) in
  (let* acc := for_range (Z.to_nat end_) 0 (fitness_body ind) (0, 0) in
   Ok (if decide (acc.2 > capacity s) then 0 else acc.1))%res.

(** *** Mutation *)

Definition mutate (parent : Individual) : M Individual :=
  let child := parent in
  (let* mutatingIndex := draw (breedingDistribution s) in
   let* b := lift (vec_get child mutatingIndex) in
   lift (vec_set child mutatingIndex (negb b)))%rand.

(** *** Crossover

    The second loop counts in [std::size_t], starting from the converted
    index. *)

Definition copy_gene (parent : Individual) (i : Z) (child : Individual)
  : result Individual :=
  (let* b := vec_get parent i in vec_set child i b)%res.

Definition crossover (parent1 parent2 : Individual) : M Individual :=
  let child := replicate (length parent1) false in
  (let* crossoverIndex := draw (breedingDistribution s) in
   lift (let* child :=
           for_range (Z.to_nat crossoverIndex) 0 (copy_gene parent1) child in
         let start := to_size_t crossoverIndex in
         for_range (Z.to_nat (Z.of_nat (length parent2) - start)) start
                   (copy_gene parent2) child)%res)%rand.

(** *** Random individuals

    [n] is the number of rounds left, [i] the gene index, [w] the running
    weight. The loop is left as soon as the running weight passes the
    capacity. *)

Fixpoint generateIndividual_loop (n : nat) (i : Z) (w : Z) (ind : Individual)
  : M Individual :=
  match n with
  | O => ret ind
  | S n' =>
      (let* r := draw (breedingDistribution s) in
       let bit := bool_decide (Z.rem r 2 <> 0) in
       if bit then
         let* it := lift (vec_get (items s) i) in
         let w' := to_int (w + weight it) in
         if decide (w' > capacity s) then ret ind
         else
           let* ind' := lift (vec_set ind i true) in
           generateIndividual_loop n' (i + 1) w' ind'
       else generateIndividual_loop n' (i + 1) w ind)%rand
  end.

Definition generateIndividual : M Individual :=
  let len := to_int (Z.of_nat (length (items s))) in
  if decide (len < 0) then lift (Err LengthError)
  else
    generateIndividual_loop (Z.to_nat len) 0 0 (replicate (Z.to_nat len) false).

(** *** The initial population *)

Fixpoint generateInitialPop_loop (n : nat) (pop : Population) : M Population :=
  match n with
  | O => ret pop
  | S n' =>
      (let* ind := generateIndividual in
       generateInitialPop_loop n' (pop ++ [ind]))%rand
  end.

Definition generateInitialPop : M Population :=
  generateInitialPop_loop (Z.to_nat (popSize s)) [].

(** *** Selection

    The comparator of the sort calls [fitness] on both sides. A sort of
    two elements or more compares every element at least once, so a
    fitness that reads past the end of an individual fails the selection;
    a shorter range is returned without a comparison. The result is built
    from the range [begin, begin + popSize): a negative [popSize] is a
    size above every possible vector size, a [popSize] above the size of
    the pool takes the range past its end. *)

Definition fitter (lhs rhs : Individual) : bool :=
  match fitness lhs, fitness rhs with
  | Ok fl, Ok fr => bool_decide (fl > fr)
  | _, _ => false
  end.

Definition naturalSelection (pop : Population) : result Population :=
  let newPop := pop in
  (let* _ := if decide (2 <= length newPop)%nat then traverse fitness newPop
             else Ok [] in
   let newPop := std_sort fitter newPop in
   if decide (popSize s < 0) then Err LengthError
   else if decide (popSize s <= Z.of_nat (length newPop)) then
     Ok (take (Z.to_nat (popSize s)) newPop)
   else Err OutOfBounds)%res.

(** *** Breeding

    [newPop.resize(popSize * 3)] sets the size of the copy, padding it
    with empty individuals; the children are then pushed behind. *)

Fixpoint breed_loop (pop : Population) (rest : list Individual)
    (newPop : Population) : M Population :=
  match rest with
  | [] => ret newPop
  | individual :: rest' =>
      (let* mutant := mutate individual in
       let* j := draw (populationDistribution s) in
       let* other := lift (vec_get pop j) in
       let* child := crossover individual other in
       breed_loop pop rest' ((newPop ++ [mutant]) ++ [child]))%rand
  end.

Definition breed (pop : Population) : M Population :=
  let newPop := pop in
  let n := to_int (popSize s * 3) in
  if decide (n < 0) then lift (Err LengthError)
  else breed_loop pop pop (vec_resize [] (Z.to_nat n) newPop).

(** *** The solver loop *)

Fixpoint solve_loop (n : nat) (generation : Population) : M Population :=
  match n with
  | O => ret generation
  | S n' =>
      (let* nextGen := breed generation in
       let* generation' := lift (naturalSelection nextGen) in
       solve_loop n' generation')%rand
  end.

Definition solve : M Individual :=
  (let* generation := generateInitialPop in
   let* generation' := solve_loop (Z.to_nat (maxIterations s)) generation in
   lift (vec_get generation' 0))%rand.

End Solver.

(** ** A sort that meets the contract

    Insertion sort, to run the solver on concrete inputs. *)

Fixpoint insert_sorted {A} (lt : A -> A -> bool) (x : A) (l : list A) : list A :=
  match l with
  | [] => [x]
  | y :: l' => if lt y x then y :: insert_sorted lt x l' else x :: l
  end.

Fixpoint insertion_sort {A} (lt : A -> A -> bool) (l : list A) : list A :=
  match l with
  | [] => []
  | x :: l' => insert_sorted lt x (insertion_sort lt l')
  end.

(** ** The vocabulary of the specification *)

(** The sum of [f] over the selected genes: the total value of a selection
    for [f := value], its total weight for [f := weight]. *)
Fixpoint selected_sum (f : Item -> Z) (its : list Item) (ind : Individual) : Z :=
  match its, ind with
  | it :: its', b :: ind' => (if b then f it else 0) + selected_sum f its' ind'
  | _, _ => 0
  end.

(** A selection is feasible when its weight is within the capacity. *)
Definition feasible (s : KnapsackSolver) (ind : Individual) : Prop :=
  selected_sum weight (items s) ind <= capacity s.

Fixpoint abs_total (f : Item -> Z) (its : list Item) : Z :=
  match its with
  | [] => 0
  | it :: its' => Z.abs (f it) + abs_total f its'
  end.

(** The catalog fits the [int] arithmetic of the program: its size, and
    the totals of its values and of its weights, are representable, so no
    sum over a selection wraps around. *)
Definition fits_int (its : list Item) : Prop :=
  Z.of_nat (length its) <= INT_MAX /\
  abs_total value its <= INT_MAX /\
  abs_total weight its <= INT_MAX.

(** The fitness of [ind] is defined: the loop stays within [ind]. *)
Definition fit_defined (s : KnapsackSolver) (ind : Individual) : Prop :=
  exists f, fitness s ind = Ok f.

(** [a] is at least as fit as [b]; both fitnesses are defined. *)
Definition fitness_ge (s : KnapsackSolver) (a b : Individual) : Prop :=
  exists fa fb, fitness s a = Ok fa /\ fitness s b = Ok fb /\ fa >= fb.

(** The children that [breed] pushes for the individuals [rest] of the
    population [pop]: for each one, a copy with one gene flipped, then a
    crossover with some individual of [pop]. *)
Inductive offspring (pop : Population) : Population -> Population -> Prop :=
  | offspring_nil : offspring pop [] []
  | offspring_cons ind rest kids (k : nat) b (j : nat) other (c : nat) :
      ind !! k = Some b ->
      pop !! j = Some other ->
      (c < length ind)%nat ->
      offspring pop rest kids ->
      offspring pop (ind :: rest)
                (<[k := negb b]> ind :: (take c ind ++ drop c other) :: kids).

(** ** The sample problem and the report

    [generateKnapsackProblem(size, seed)] seeds a generator of its own;
    the oracle [rng] stands for it. The two draws in
    [Item(dist(rng), dist(rng))] are arguments of one call, and C++ leaves
    the order of their evaluation open: [value_first] tells which of the
    two is drawn first. *)

Definition sampleItem (value_first : bool) : M Item :=
  let dist := MkDist 1 100 in
  (let* x := draw dist in
   let* y := draw dist in
   ret (if value_first then MkItem x y else MkItem y x))%rand.

Fixpoint generateKnapsackProblem_loop (value_first : bool) (n : nat)
    (items : list Item) : M (list Item) :=
  match n with
  | O => ret items
  | S n' =>
      (let* it := sampleItem value_first in
       generateKnapsackProblem_loop value_first n' (items ++ [it]))%rand
  end.

Definition generateKnapsackProblem (value_first : bool) (size : Z) (rng : Rng)
  : result (list Item) :=
  match generateKnapsackProblem_loop value_first (Z.to_nat size) [] rng with
  | Ok (items, _) => Ok items
  | Err e => Err e
  end.

(** The loop at the end of [main]: the items it prints as chosen, and the
    two totals. The catalog is indexed for the selected genes only. *)
Definition report_body (items : list Item) (solution : Individual) (i : Z)
    (acc : list Item * Z * Z) : result (list Item * Z * Z) :=
  (let* b := vec_get solution i in
   if b then
     let* it := vec_get items i in
     Ok (acc.1.1 ++ [it], to_int (acc.1.2 + value it),
         to_int (acc.2 + weight it))
   else Ok acc)%res.

Definition report (items : list Item) (solution : Individual)
  : result (list Item * Z * Z) :=
  for_range (length solution) 0 (report_body items solution) ([], 0, 0).

(** [main], as the data it prints: the catalog, the chosen items, the
    total value and the total weight. Nothing is printed before [solve]
    has returned. *)
Definition main `{StdSort} (value_first : bool) (problem_rng solver_rng : Rng)
  : result (list Item * (list Item * Z * Z)) :=
  (let* items := generateKnapsackProblem value_first 50 problem_rng in
   let* solver := construct items 500 30 50000 in
   let* solution := match solve solver solver_rng with
                    | Ok (solution, _) => Ok solution
                    | Err e => Err e
                    end in
   let* totals := report items solution in
   Ok (items, totals))%res.

(** The items of a selection, in catalog order. *)
Fixpoint chosen (its : list Item) (ind : Individual) : list Item :=
  match its, ind with
  | it :: its', b :: ind' =>
      if b then it :: chosen its' ind' else chosen its' ind'
  | _, _ => []
  end.

(** What [generateKnapsackProblem] samples: a value and a weight between
    1 and 100. *)
Definition sample_ok (it : Item) : Prop :=
  1 <= value it <= 100 /\ 1 <= weight it <= 100.

(** * Properties *)

(** ** Insertion sort meets the contract of [std::sort] *)

Lemma insert_sorted_perm {A} (lt : A -> A -> bool) x l :
  insert_sorted lt x l ≡ₚ x :: l.
Proof.
  induction l as [|y l IH]; simpl; [done|].
  destruct (lt y x); [|done].
  rewrite IH. apply Permutation_swap.
Qed.

Lemma insertion_sort_perm {A} (lt : A -> A -> bool) l :
  insertion_sort lt l ≡ₚ l.
Proof.
  induction l as [|x l IH]; simpl; [done|].
  by rewrite insert_sorted_perm, IH.
Qed.

(** In a strict weak ordering, "not before" is transitive. *)
Lemma swo_not_before {A} (lt : A -> A -> bool) (l : list A) x y z :
  StrictWeakOn lt l -> x ∈ l -> y ∈ l -> z ∈ l ->
  lt y x = false -> lt z y = false -> lt z x = false.
Proof.
  intros [Hirr Htr Heq] Hx Hy Hz Hyx Hzy.
  destruct (lt z x) eqn:Hzx; [|done].
  destruct (lt y z) eqn:Hyz.
  { rewrite (Htr y z x) in Hyx; done. }
  destruct (lt x y) eqn:Hxy.
  { rewrite (Htr z x y) in Hzy; done. }
  destruct (Heq x y z) as [_ Hc]; try done. congruence.
Qed.

Lemma swo_asym {A} (lt : A -> A -> bool) (l : list A) x y :
  StrictWeakOn lt l -> x ∈ l -> y ∈ l -> lt x y = true -> lt y x = false.
Proof.
  intros [Hirr Htr _] Hx Hy Hxy.
  destruct (lt y x) eqn:Hyx; [|done].
  rewrite <- (Hirr x Hx). symmetry. by apply (Htr x y x).
Qed.

Lemma insert_sorted_sorted {A} (lt : A -> A -> bool) (dom : list A) x l :
  StrictWeakOn lt dom -> x ∈ dom -> l ⊆ dom ->
  StronglySorted (fun a b => lt b a = false) l ->
  StronglySorted (fun a b => lt b a = false) (insert_sorted lt x l).
Proof.
  intros Hswo Hx Hl Hs. induction Hs as [|y l Hs IH Hy]; simpl.
  { repeat constructor. }
  assert (y ∈ dom) as Hyd by (apply Hl; left).
  assert (l ⊆ dom) as Hld by (intros a Ha; apply Hl; by right).
  destruct (lt y x) eqn:Hyx.
  - constructor; [by apply IH|].
    apply Forall_forall. intros a Ha.
    rewrite insert_sorted_perm in Ha.
    apply elem_of_cons in Ha as [->|Ha].
    + by apply (swo_asym lt dom).
    + by apply (proj1 (Forall_forall _ _) Hy).
  - constructor; [by constructor|].
    constructor; [done|].
    apply Forall_forall. intros a Ha.
    apply (swo_not_before lt dom x y a); auto.
    by apply (proj1 (Forall_forall _ _) Hy).
Qed.

Lemma insertion_sort_sorted {A} (lt : A -> A -> bool) (l : list A) :
  StrictWeakOn lt l ->
  StronglySorted (fun a b => lt b a = false) (insertion_sort lt l).
Proof.
  intros Hswo.
  assert (l ⊆ l) as Hsub by done. revert Hsub.
  generalize l at 1 3. intros l0.
  induction l0 as [|x l0 IH]; intros Hsub; simpl; [constructor|].
  apply (insert_sorted_sorted lt l); [done|apply Hsub; left| |].
  - intros a Ha. rewrite insertion_sort_perm in Ha. apply Hsub. by right.
  - apply IH. intros a Ha. apply Hsub. by right.
Qed.

#[export] Instance insertion_StdSort : StdSort := {|
  std_sort := @insertion_sort;
  std_sort_perm := @insertion_sort_perm;
  std_sort_sorted := @insertion_sort_sorted
|}.

(** ** Integers and vectors *)

Lemma to_int_id z : in_int z -> to_int z = z.
Proof.
  unfold in_int, INT_MIN, INT_MAX, to_int. intros Hz.
  rewrite Z.mod_small; lia.
Qed.

Lemma to_int_gene v b :
  Z.abs v <= INT_MAX -> to_int (v * bool_to_int b) = if b then v else 0.
Proof.
  intros Hv. rewrite to_int_id.
  - destruct b; simpl; lia.
  - unfold in_int, INT_MIN, INT_MAX in *. destruct b; simpl; lia.
Qed.

Lemma to_int_size n : Z.of_nat n <= INT_MAX -> to_int (Z.of_nat n) = Z.of_nat n.
Proof.
  intros Hn. apply to_int_id. unfold in_int, INT_MIN, INT_MAX in *. lia.
Qed.

Lemma vec_get_lookup {A} (v : list A) (n : nat) x :
  v !! n = Some x -> vec_get v (Z.of_nat n) = Ok x.
Proof.
  intros Hl. unfold vec_get.
  destruct (decide (0 <= Z.of_nat n)); [|lia].
  by rewrite Nat2Z.id, Hl.
Qed.

Lemma vec_get_past {A} (v : list A) (i : Z) :
  Z.of_nat (length v) <= i -> vec_get v i = Err OutOfBounds.
Proof.
  intros Hl. unfold vec_get.
  destruct (decide (0 <= i)); [|done].
  rewrite (lookup_ge_None_2 v (Z.to_nat i)); [done|lia].
Qed.

Lemma vec_set_insert {A} (v : list A) (n : nat) x :
  (n < length v)%nat -> vec_set v (Z.of_nat n) x = Ok (<[n := x]> v).
Proof.
  intros Hl. unfold vec_set.
  destruct (decide _); [|lia].
  by rewrite Nat2Z.id.
Qed.

(** ** Fitness *)

Lemma abs_total_nonneg f its : 0 <= abs_total f its.
Proof. induction its; simpl; lia. Qed.

Lemma abs_total_app f its1 its2 :
  abs_total f (its1 ++ its2) = abs_total f its1 + abs_total f its2.
Proof. induction its1; simpl; lia. Qed.

Lemma selected_sum_bound f its ind :
  Z.abs (selected_sum f its ind) <= abs_total f its.
Proof.
  revert ind. induction its as [|it its IH]; intros ind; simpl; [lia|].
  pose proof (abs_total_nonneg f its).
  destruct ind as [|b ind]; [lia|].
  specialize (IH ind). destruct b; lia.
Qed.

Lemma selected_sum_none f its n :
  selected_sum f its (replicate n false) = 0.
Proof.
  revert n. induction its as [|it its IH]; intros [|n]; simpl; try done.
  by rewrite IH.
Qed.

Lemma selected_sum_app f its1 its2 ind1 ind2 :
  length its1 = length ind1 ->
  selected_sum f (its1 ++ its2) (ind1 ++ ind2) =
    selected_sum f its1 ind1 + selected_sum f its2 ind2.
Proof.
  revert ind1. induction its1 as [|it its1 IH]; intros [|b ind1] Hl;
    simpl in *; try done.
  rewrite IH by lia. lia.
Qed.

Section FitnessFacts.

Variable s : KnapsackSolver.

(** The loop of [fitness] from gene [k] on, [n] genes before the end. *)
Lemma fitness_loop ind n k acc :
  (k + n = length (items s))%nat ->
  (length (items s) <= length ind)%nat ->
  Z.abs acc.1 + abs_total value (drop k (items s)) <= INT_MAX ->
  Z.abs acc.2 + abs_total weight (drop k (items s)) <= INT_MAX ->
  for_range n (Z.of_nat k) (fitness_body s ind) acc =
    Ok (acc.1 + selected_sum value (drop k (items s)) (drop k ind),
        acc.2 + selected_sum weight (drop k (items s)) (drop k ind)).
Proof.
  revert k acc.
  induction n as [|n IH]; intros k [fit w] Hk Hind Hv Hw; simpl in *.
  { rewrite drop_ge by lia. simpl. do 2 f_equal; lia. }
  destruct (lookup_lt_is_Some_2 (items s) k) as [it Hit]; [lia|].
  destruct (lookup_lt_is_Some_2 ind k) as [b Hb]; [lia|].
  unfold fitness_body at 1.
  rewrite (vec_get_lookup _ _ _ Hit), (vec_get_lookup _ _ _ Hb). simpl.
  rewrite (drop_S _ _ _ Hit) in Hv, Hw |- *. rewrite (drop_S _ _ _ Hb).
  simpl in Hv, Hw |- *.
  pose proof (abs_total_nonneg value (drop (S k) (items s))).
  pose proof (abs_total_nonneg weight (drop (S k) (items s))).
  rewrite !to_int_gene by (unfold INT_MAX in *; lia).
  assert (Z.abs (if b then value it else 0) <= Z.abs (value it))
    by (destruct b; lia).
  assert (Z.abs (if b then weight it else 0) <= Z.abs (weight it))
    by (destruct b; lia).
  rewrite !to_int_id by (unfold in_int, INT_MIN, INT_MAX in *; lia).
  replace (Z.of_nat k + 1) with (Z.of_nat (S k)) by lia.
  rewrite IH; simpl; [do 2 f_equal; lia|lia|done|lia|lia].
Qed.

Lemma fitness_eq ind :
  fits_int (items s) -> length ind = length (items s) ->
  fitness s ind =
    Ok (if decide (selected_sum weight (items s) ind > capacity s) then 0
        else selected_sum value (items s) ind).
Proof.
  intros (Hlen & Hv & Hw) Hind. unfold fitness.
  rewrite to_int_size, Nat2Z.id by done.
  pose proof (fitness_loop ind (length (items s)) 0 (0, 0)) as Hloop.
  change (Z.of_nat 0) with 0 in Hloop. rewrite !drop_0 in Hloop.
  cbn [fst snd] in Hloop. rewrite Hloop by lia. simpl. done.
Qed.

(** C6. For every individual of length N (over a catalog that fits the
    [int] arithmetic), [fitness] returns the sum of the values of the
    selected genes when the sum of their weights is at most the capacity,
    and exactly 0 whenever that sum of weights exceeds the capacity,
    whatever the accumulated value; hence the fitness of the all-unselected
    individual is 0. *)
Theorem fitness_value_or_zero (ind : Individual) :
  fits_int (items s) ->
  length ind = length (items s) ->
  (selected_sum weight (items s) ind <= capacity s ->
     fitness s ind = Ok (selected_sum value (items s) ind)) /\
  (selected_sum weight (items s) ind > capacity s ->
     fitness s ind = Ok 0) /\
  fitness s (replicate (length (items s)) false) = Ok 0.
Proof.
  intros Hfit Hlen. repeat split.
  - intros Hw. rewrite fitness_eq by done. destruct (decide _); [lia|done].
  - intros Hw. rewrite fitness_eq by done. destruct (decide _); [done|lia].
  - rewrite fitness_eq by (done || apply length_replicate).
    rewrite !selected_sum_none. by destruct (decide _).
Qed.

End FitnessFacts.

Lemma fitness_value_or_zero_witness :
  let s := init_solver [MkItem 60 10; MkItem 100 20; MkItem 120 30] 50 10 200 in
  fitness s [false; true; true] = Ok 220 /\
  fitness s [true; true; true] = Ok 0 /\
  fitness s [false; false; false] = Ok 0.
Proof.
  intros s.
  assert (fits_int (items s)) as Hfit
    by (unfold fits_int, INT_MAX; simpl; lia).
  destruct (fitness_value_or_zero s [false; true; true] Hfit eq_refl)
    as (Hfeasible & _ & Hnone).
  destruct (fitness_value_or_zero s [true; true; true] Hfit eq_refl)
    as (_ & Hover & _).
  split; [|split].
  - apply Hfeasible. simpl. lia.
  - apply Hover. simpl. lia.
  - exact Hnone.
Defined.

(** ** The random source *)

Lemma draw_in_range d g :
  dist_a d <= dist_b d ->
  exists k, draw d g = Ok (k, advance g) /\ dist_a d <= k <= dist_b d /\
            k = dist_a d + raw g (pos g) mod (dist_b d - dist_a d + 1).
Proof.
  intros Hab. eexists. unfold draw.
  destruct (decide _); [|lia].
  split; [done|]. split; [|done].
  pose proof (Z.mod_pos_bound (raw g (pos g)) (dist_b d - dist_a d + 1)).
  lia.
Qed.

Lemma draw_empty d g : dist_b d < dist_a d -> draw d g = Err EmptyRange.
Proof. intros Hab. unfold draw. destruct (decide _); [lia|done]. Qed.

(** The index distribution of a solver over a non-empty catalog. *)
Lemma breeding_bounds its cap pop maxit :
  (0 < length its)%nat -> Z.of_nat (length its) <= INT_MAX ->
  breedingDistribution (init_solver its cap pop maxit) =
    MkDist 0 (Z.of_nat (length its) - 1).
Proof.
  intros Hpos Hmax. unfold init_solver. simpl. f_equal.
  unfold to_size_t, INT_MAX in *.
  rewrite Z.mod_small by lia.
  apply to_int_id. unfold in_int, INT_MIN, INT_MAX. lia.
Qed.

Lemma breeding_draw its cap pop maxit g :
  (0 < length its)%nat -> Z.of_nat (length its) <= INT_MAX ->
  exists k : nat,
    draw (breedingDistribution (init_solver its cap pop maxit)) g =
      Ok (Z.of_nat k, advance g) /\
    (k < length its)%nat /\
    Z.of_nat k = raw g (pos g) mod Z.of_nat (length its).
Proof.
  intros Hpos Hmax. rewrite breeding_bounds by done.
  destruct (draw_in_range (MkDist 0 (Z.of_nat (length its) - 1)) g)
    as (k & Hd & Hk & Heq); simpl in *; [lia|].
  exists (Z.to_nat k). rewrite Z2Nat.id by lia.
  split; [done|]. split; [clear Heq; lia|].
  rewrite Heq, Z.add_0_l. f_equal. lia.
Qed.

(** ** Mutation and crossover *)

(** Copying [n] genes of [parent] into [child], from gene [k] on. *)
Lemma copy_loop parent n k child :
  (k + n <= length parent)%nat -> (k + n <= length child)%nat ->
  for_range n (Z.of_nat k) (copy_gene parent) child =
    Ok (take k child ++ take n (drop k parent) ++ drop (k + n) child).
Proof.
  revert k child. induction n as [|n IH]; intros k child Hp Hc; simpl.
  { rewrite Nat.add_0_r, take_drop. done. }
  destruct (lookup_lt_is_Some_2 parent k) as [b Hb]; [lia|].
  unfold copy_gene at 1.
  rewrite (vec_get_lookup _ _ _ Hb). simpl.
  rewrite vec_set_insert by lia. simpl.
  replace (Z.of_nat k + 1) with (Z.of_nat (S k)) by lia.
  rewrite IH by (rewrite ?length_insert; lia).
  f_equal.
  rewrite (take_S_r _ _ b) by (apply list_lookup_insert_eq; lia).
  rewrite take_insert_ge by lia.
  rewrite drop_insert_lt by lia.
  rewrite (drop_S _ _ _ Hb). simpl.
  rewrite <- app_assoc. simpl.
  by rewrite Nat.add_succ_r.
Qed.

Lemma crossover_at its cap pop maxit (parent1 parent2 : Individual) g :
  (0 < length its)%nat -> Z.of_nat (length its) <= INT_MAX ->
  length parent1 = length its -> length parent2 = length its ->
  exists k : nat,
    (k < length its)%nat /\
    Z.of_nat k = raw g (pos g) mod Z.of_nat (length its) /\
    crossover (init_solver its cap pop maxit) parent1 parent2 g =
      Ok (take k parent1 ++ drop k parent2, advance g).
Proof.
  intros Hpos Hmax H1 H2.
  destruct (breeding_draw its cap pop maxit g Hpos Hmax) as (k & Hd & Hk & Hr).
  exists k. split; [done|]. split; [done|].
  unfold crossover, bindM. rewrite Hd. clear Hd Hr.
  rewrite Nat2Z.id.
  pose proof (copy_loop parent1 k 0 (replicate (length parent1) false)) as L1.
  change (Z.of_nat 0) with 0 in L1.
  rewrite L1 by (rewrite ?length_replicate; lia). clear L1. simpl.
  unfold to_size_t. rewrite Z.mod_small by (unfold INT_MAX in *; lia).
  replace (Z.to_nat (Z.of_nat (length parent2) - Z.of_nat k))
    with (length parent2 - k)%nat by lia.
  rewrite copy_loop.
  - unfold lift. do 2 f_equal.
    rewrite drop_0, drop_replicate.
    rewrite take_app_length' by (rewrite length_take; lia).
    rewrite (take_ge (drop k parent2)) by (rewrite length_drop; lia).
    rewrite (drop_ge (_ ++ _)); [by rewrite app_nil_r|].
    rewrite length_app, length_take, length_replicate. lia.
  - lia.
  - rewrite drop_0, length_app, length_take, length_drop, length_replicate. lia.
Qed.

(** C8. For any two parents of length N and the crossover index k drawn
    from [0, N) (any index of the range is drawn by some oracle: k is the
    oracle's next number reduced modulo N), the child has length N, its
    genes at positions [0, k) are those of parent 1 and its genes at
    positions [k, N) those of parent 2; consequently a parent crossed with
    itself is returned unchanged, whatever the index. *)
Theorem crossover_boundary its cap pop maxit
    (parent1 parent2 : Individual) (g : Rng) :
  (0 < length its)%nat -> Z.of_nat (length its) <= INT_MAX ->
  length parent1 = length its -> length parent2 = length its ->
  exists (k : nat) (child : Individual),
    Z.of_nat k = raw g (pos g) mod Z.of_nat (length its) /\
    (k < length its)%nat /\
    crossover (init_solver its cap pop maxit) parent1 parent2 g =
      Ok (child, advance g) /\
    length child = length its /\
    (forall i, (i < k)%nat -> child !! i = parent1 !! i) /\
    (forall i, (k <= i)%nat -> child !! i = parent2 !! i) /\
    (parent1 = parent2 -> child = parent1).
Proof.
  intros Hpos Hmax H1 H2.
  destruct (crossover_at its cap pop maxit parent1 parent2 g)
    as (k & Hk & Hr & Hc); try done.
  exists k, (take k parent1 ++ drop k parent2).
  split; [done|]. clear Hr.
  repeat split; try done.
  - rewrite length_app, length_take, length_drop. lia.
  - intros i Hi. rewrite lookup_app_l by (rewrite length_take; lia).
    by apply lookup_take_lt.
  - intros i Hi. rewrite lookup_app_r by (rewrite length_take; lia).
    rewrite lookup_drop, length_take. f_equal. lia.
  - intros <-. apply take_drop.
Qed.

Lemma crossover_boundary_witness :
  crossover (init_solver [MkItem 60 10; MkItem 100 20; MkItem 120 30] 50 10 200)
            [true; true; true] [false; false; false] (rng_of [7]) =
    Ok ([true; false; false], advance (rng_of [7])).
Proof.
  destruct (crossover_boundary
              [MkItem 60 10; MkItem 100 20; MkItem 120 30] 50 10 200
              [true; true; true] [false; false; false] (rng_of [7]))
    as (k & child & Hk & Hlt & Hc & Hlen & Hl & Hr & _);
    [simpl; lia | unfold INT_MAX; simpl; lia | reflexivity | reflexivity |].
  rewrite Hc. do 2 f_equal.
  assert (k = 1%nat) as ->.
  { change (raw _ _ mod _) with 1 in Hk. lia. }
  apply list_eq. intros [|[|[|i]]].
  - rewrite Hl by lia. reflexivity.
  - rewrite Hr by lia. reflexivity.
  - rewrite Hr by lia. reflexivity.
  - rewrite Hr by lia. reflexivity.
Defined.

(** ** Random individuals *)

Lemma generateInitialPop_loop_all (Q : Individual -> Prop) s n acc g :
  (forall g, exists ind g', generateIndividual s g = Ok (ind, g') /\ Q ind) ->
  Forall Q acc ->
  exists P g',
    generateInitialPop_loop s n acc g = Ok (P, g') /\
    length P = (length acc + n)%nat /\
    Forall Q P.
Proof.
  intros Hgen. revert acc g. induction n as [|n IH]; intros acc g Hacc; simpl.
  { exists acc, g. split; [done|]. split; [lia|done]. }
  unfold bindM.
  destruct (Hgen g) as (ind & g1 & -> & HQ).
  destruct (IH (acc ++ [ind]) g1) as (P & g' & HP & HlP & HfP).
  { apply Forall_app. split; [done|]. by repeat constructor. }
  exists P, g'. split; [done|]. split; [|done].
  rewrite HlP, length_app. simpl. lia.
Qed.

Section Generation.

Variables (its : list Item) (cap pop maxit : Z).

Local Abbreviation s := (init_solver its cap pop maxit).

Hypothesis Hfit : fits_int its.

(** The loop of [generateIndividual] at gene [length its1]: the genes
    before it are [pre], of weight [w] within the capacity, and the [n]
    genes from it on are still unselected. *)
Lemma generateIndividual_loop_feasible n its1 its2 pre w g :
  its = its1 ++ its2 -> length its2 = n -> length pre = length its1 ->
  w = selected_sum weight its1 pre -> w <= cap ->
  exists ind g',
    generateIndividual_loop s n (Z.of_nat (length its1)) w
                            (pre ++ replicate n false) g = Ok (ind, g') /\
    length ind = length its /\
    selected_sum weight its ind <= cap.
Proof.
  destruct Hfit as (Hlen & _ & Hw).
  revert its1 its2 pre w g.
  induction n as [|n IH]; intros its1 its2 pre w g Hits Hn Hpre Hsum Hcap.
  { destruct its2; [|done]. simpl. exists pre, g.
    rewrite !app_nil_r in *. subst. done. }
  destruct its2 as [|it its2]; [done|]. simpl in Hn.
  assert (its = (its1 ++ [it]) ++ its2) as Hits'
    by (by rewrite <- app_assoc).
  assert (length its = length its1 + S n)%nat as Hsplit
    by (rewrite Hits, length_app; simpl; lia).
  remember (pre ++ replicate (S n) false) as ind0 eqn:Hind0.
  assert (length ind0 = length its) as Hall.
  { rewrite Hind0, Hits, !length_app, length_replicate. simpl. lia. }
  assert (selected_sum weight its ind0 = w) as Hnow.
  { rewrite Hind0, Hits, selected_sum_app, selected_sum_none by done. lia. }
  assert (forall b, pre ++ b :: replicate n false =
                    (pre ++ [b]) ++ replicate n false) as Hsnoc
    by (intros b; by rewrite <- app_assoc).
  assert (forall b, selected_sum weight (its1 ++ [it]) (pre ++ [b]) =
                    w + if b then weight it else 0) as Hstep.
  { intros b. rewrite selected_sum_app by done. simpl. subst w. lia. }
  assert (Z.of_nat (length its1) + 1 = Z.of_nat (length (its1 ++ [it])))
    as Hnext by (rewrite length_app; simpl; lia).
  assert (length (pre ++ [true]) = length (its1 ++ [it])) as Hpre1
    by (rewrite !length_app; simpl; lia).
  cbn [generateIndividual_loop]. unfold bindM at 1.
  destruct (breeding_draw its cap pop maxit g) as (k & -> & _ & _);
    [rewrite Hits, length_app; simpl; lia|done|].
  destruct (bool_decide (Z.rem (Z.of_nat k) 2 <> 0)).
  - unfold bindM at 1, lift at 1.
    rewrite (vec_get_lookup _ _ it)
      by (simpl; rewrite Hits; by apply list_lookup_middle).
    assert (to_int (w + weight it) = w + weight it) as ->.
    { apply to_int_id.
      pose proof (selected_sum_bound weight its1 pre).
      pose proof (abs_total_nonneg weight its2).
      rewrite Hits, abs_total_app in Hw. simpl in Hw.
      unfold in_int, INT_MIN, INT_MAX in *. lia. }
    simpl. destruct (decide (w + weight it > cap)).
    + eexists _, _. split; [done|]. split; [done|lia].
    + unfold bindM at 1, lift at 1.
      rewrite vec_set_insert by lia.
      replace (<[length its1:=true]> ind0)
        with ((pre ++ [true]) ++ replicate n false).
      2: { rewrite Hind0, <- Hpre, <- Hsnoc. simpl.
           by rewrite (insert_app_r_alt pre _ (length pre)), Nat.sub_diag. }
      rewrite Hnext.
      apply (IH (its1 ++ [it]) its2 (pre ++ [true]));
        [done | lia | done | by rewrite Hstep | lia].
  - replace ind0
      with ((pre ++ [false]) ++ replicate n false)
      by (by rewrite Hind0, <- Hsnoc).
    rewrite Hnext.
    apply (IH (its1 ++ [it]) its2 (pre ++ [false]));
      [done | lia | rewrite !length_app; simpl; lia
      | rewrite Hstep; lia | done].
Qed.

Lemma generateIndividual_feasible g :
  0 <= cap ->
  exists ind g',
    generateIndividual s g = Ok (ind, g') /\
    length ind = length its /\
    selected_sum weight its ind <= cap.
Proof.
  intros Hcap. unfold generateIndividual. simpl.
  rewrite to_int_size, Nat2Z.id by apply Hfit.
  destruct (decide _); [lia|].
  apply (generateIndividual_loop_feasible (length its) [] its [] 0 g); done.
Qed.

End Generation.

(** C10. For every catalog (that fits the [int] arithmetic; the weights
    need not even be non-negative) and every capacity >= 0, random
    individual generation returns, for every oracle, an individual of
    length N that is feasible: the sum of the weights of its selected
    genes is at most the capacity. So the initial population is produced,
    has the configured size, and all of it is feasible. *)
Theorem initial_population_feasible its cap pop maxit (g : Rng) :
  fits_int its -> 0 <= cap ->
  let s := init_solver its cap pop maxit in
  (exists ind g', generateIndividual s g = Ok (ind, g') /\
                  length ind = length its /\ feasible s ind) /\
  (exists P g', generateInitialPop s g = Ok (P, g') /\
                length P = Z.to_nat pop /\
                Forall (fun ind => length ind = length its /\ feasible s ind) P).
Proof.
  intros Hfit Hcap s. split.
  - by apply generateIndividual_feasible.
  - apply (generateInitialPop_loop_all
             (fun ind => length ind = length its /\ feasible s ind)
             s (Z.to_nat pop) [] g); [|constructor].
    intros g0. by apply generateIndividual_feasible.
Qed.

Lemma initial_population_feasible_witness :
  let s := init_solver [MkItem 60 10; MkItem 100 20; MkItem 120 30] 50 2 0 in
  exists P g',
    generateInitialPop s (rng_of [1; 1; 1; 0; 1; 1]) = Ok (P, g') /\
    length P = 2%nat /\
    Forall (fun ind => length ind = 3%nat /\ feasible s ind) P.
Proof.
  apply (initial_population_feasible
           [MkItem 60 10; MkItem 100 20; MkItem 120 30] 50 2 0
           (rng_of [1; 1; 1; 0; 1; 1])).
  - unfold fits_int, INT_MAX. simpl. lia.
  - lia.
Defined.

(** ** Selection *)

Lemma to_int_le z : 0 <= z -> to_int z <= z.
Proof.
  intros Hz. unfold to_int.
  pose proof (Z.mod_le (z + 2 ^ 31) (2 ^ 32)). lia.
Qed.

Lemma traverse_defined {A B} (f : A -> result B) (l : list A) :
  Forall (fun x => exists y, f x = Ok y) l -> exists ys, traverse f l = Ok ys.
Proof.
  induction 1 as [|x l [y Hy] _ [ys Hys]]; simpl; [by eexists|].
  rewrite Hy. simpl. rewrite Hys. simpl. by eexists.
Qed.

Lemma traverse_undefined {A B} (f : A -> result B) (l1 l2 : list A) x e :
  Forall (fun x => exists y, f x = Ok y) l1 -> f x = Err e ->
  traverse f (l1 ++ x :: l2) = Err e.
Proof.
  intros Hl1 Hx. induction Hl1 as [|x1 l1 [y Hy] _ IH]; simpl.
  - by rewrite Hx.
  - by rewrite Hy, IH.
Qed.

Section SelectionFacts.

Context `{StdSort}.

Variable s : KnapsackSolver.

Lemma fitness_loop_defined ind n k acc :
  (k + n <= length (items s))%nat -> (k + n <= length ind)%nat ->
  exists acc', for_range n (Z.of_nat k) (fitness_body s ind) acc = Ok acc'.
Proof.
  revert k acc. induction n as [|n IH]; intros k acc Hits Hind; simpl.
  { by eexists. }
  destruct (lookup_lt_is_Some_2 (items s) k) as [it Hit]; [lia|].
  destruct (lookup_lt_is_Some_2 ind k) as [b Hb]; [lia|].
  unfold fitness_body at 1.
  rewrite (vec_get_lookup _ _ _ Hit), (vec_get_lookup _ _ _ Hb). simpl.
  replace (Z.of_nat k + 1) with (Z.of_nat (S k)) by lia.
  apply IH; lia.
Qed.

(** [fitness] reads the first N genes: it is defined on every individual
    of at least that length. *)
Lemma fitness_defined ind :
  (length (items s) <= length ind)%nat -> exists f, fitness s ind = Ok f.
Proof.
  intros Hind. unfold fitness.
  pose proof (to_int_le (Z.of_nat (length (items s)))).
  destruct (fitness_loop_defined ind
              (Z.to_nat (to_int (Z.of_nat (length (items s))))) 0 (0, 0))
    as [acc Hacc]; [lia|lia|].
  change (Z.of_nat 0) with 0 in Hacc. rewrite Hacc. simpl. by eexists.
Qed.

(** An individual shorter than the catalog is read past its end. *)
Lemma fitness_loop_short ind n k acc :
  (k <= length ind)%nat -> (length ind < k + n)%nat ->
  (k + n <= length (items s))%nat ->
  for_range n (Z.of_nat k) (fitness_body s ind) acc = Err OutOfBounds.
Proof.
  revert k acc. induction n as [|n IH]; intros k acc Hk Hind Hits; simpl.
  { lia. }
  destruct (lookup_lt_is_Some_2 (items s) k) as [it Hit]; [lia|].
  unfold fitness_body at 1.
  rewrite (vec_get_lookup _ _ _ Hit). simpl.
  destruct (decide (k = length ind)) as [->|Hne].
  - rewrite vec_get_past by lia. done.
  - destruct (lookup_lt_is_Some_2 ind k) as [b Hb]; [lia|].
    rewrite (vec_get_lookup _ _ _ Hb). simpl.
    replace (Z.of_nat k + 1) with (Z.of_nat (S k)) by lia.
    apply IH; lia.
Qed.

Lemma fitness_short ind :
  Z.of_nat (length (items s)) <= INT_MAX ->
  (length ind < length (items s))%nat ->
  fitness s ind = Err OutOfBounds.
Proof.
  intros Hmax Hind. unfold fitness.
  rewrite to_int_size, Nat2Z.id by done.
  pose proof (fitness_loop_short ind (length (items s)) 0 (0, 0)) as Hl.
  change (Z.of_nat 0) with 0 in Hl. rewrite Hl by lia. done.
Qed.

Lemma fitter_swo (pool : Population) :
  Forall (fit_defined s) pool -> StrictWeakOn (fitter s) pool.
Proof.
  intros Hdef. rewrite Forall_forall in Hdef.
  split.
  - intros x [fx Hx]%Hdef. unfold fitter. rewrite Hx.
    apply bool_decide_eq_false. lia.
  - intros x y z [fx Hx]%Hdef [fy Hy]%Hdef [fz Hz]%Hdef.
    unfold fitter. rewrite Hx, Hy, Hz.
    rewrite !bool_decide_eq_true. lia.
  - intros x y z [fx Hx]%Hdef [fy Hy]%Hdef [fz Hz]%Hdef.
    unfold fitter. rewrite Hx, Hy, Hz.
    rewrite !bool_decide_eq_false. lia.
Qed.

Lemma not_fitter_ge a b :
  fit_defined s a -> fit_defined s b -> fitter s b a = false -> fitness_ge s a b.
Proof.
  intros [fa Ha] [fb Hb]. unfold fitter. rewrite Ha, Hb.
  rewrite bool_decide_eq_false. intros Hge.
  exists fa, fb. repeat split; try done. lia.
Qed.

Lemma sorted_fitness_ge (l : Population) :
  Forall (fit_defined s) l ->
  StronglySorted (fun a b => fitter s b a = false) l ->
  StronglySorted (fitness_ge s) l.
Proof.
  intros Hdef Hs. induction Hs as [|a l Hs IH Ha]; [constructor|].
  apply Forall_cons in Hdef as [Hda Hdl].
  constructor; [by apply IH|].
  rewrite Forall_forall in Ha, Hdl |- *.
  intros b Hb. apply not_fitter_ge; auto.
Qed.

(** What [naturalSelection] returns when every fitness is defined. *)
Lemma naturalSelection_sorted (pool : Population) :
  0 <= popSize s <= Z.of_nat (length pool) ->
  Forall (fit_defined s) pool ->
  naturalSelection s pool =
    Ok (take (Z.to_nat (popSize s)) (std_sort (fitter s) pool)) /\
  StronglySorted (fitness_ge s) (std_sort (fitter s) pool).
Proof.
  intros HP Hdef. split.
  - unfold naturalSelection.
    destruct (decide (2 <= length pool)%nat).
    + destruct (traverse_defined (fitness s) pool Hdef) as [fs ->]. simpl.
      rewrite (Permutation_length (std_sort_perm _ (fitter s) pool)).
      destruct (decide _); [lia|]. destruct (decide _); [done|lia].
    + simpl.
      rewrite (Permutation_length (std_sort_perm _ (fitter s) pool)).
      destruct (decide _); [lia|]. destruct (decide _); [done|lia].
  - apply sorted_fitness_ge.
    + by rewrite std_sort_perm.
    + by apply std_sort_sorted, fitter_swo.
Qed.

(** C7. For every pool (of individuals of length N) whose size is at least
    the target size P, selection returns exactly P individuals, ordered so
    that fitness is non-increasing along the returned sequence; together
    with the discarded individuals they make up the pool, and the fitness
    of every returned individual is >= the fitness of every discarded
    one. This holds for every sort that meets the contract of
    [std::sort], whatever it does with ties. *)
Theorem selection_ordering (pool : Population) :
  0 <= popSize s <= Z.of_nat (length pool) ->
  Forall (fun ind => length ind = length (items s)) pool ->
  exists selected discarded : Population,
    naturalSelection s pool = Ok selected /\
    Z.of_nat (length selected) = popSize s /\
    selected ++ discarded ≡ₚ pool /\
    StronglySorted (fitness_ge s) selected /\
    (forall a b, a ∈ selected -> b ∈ discarded -> fitness_ge s a b).
Proof.
  intros HP Hlen.
  assert (Forall (fit_defined s) pool) as Hdef.
  { eapply Forall_impl; [exact Hlen|]. intros ind Hind. simpl in Hind.
    apply fitness_defined. lia. }
  destruct (naturalSelection_sorted pool HP Hdef) as [Hsel Hsorted].
  pose proof (Permutation_length (std_sort_perm _ (fitter s) pool)) as Hl.
  exists (take (Z.to_nat (popSize s)) (std_sort (fitter s) pool)),
         (drop (Z.to_nat (popSize s)) (std_sort (fitter s) pool)).
  rewrite <- (take_drop (Z.to_nat (popSize s))) in Hsorted.
  apply StronglySorted_app in Hsorted as (Hcross & Htake & _).
  repeat split; try done.
  - rewrite length_take. lia.
  - rewrite take_drop. apply std_sort_perm.
Qed.

(** Elitism: the first individual that selection returns is at least as
    fit as every individual of the pool. *)
Lemma naturalSelection_head_fittest (pool selected : Population) best :
  1 <= popSize s <= Z.of_nat (length pool) ->
  Forall (fit_defined s) pool ->
  naturalSelection s pool = Ok (best :: selected) ->
  forall ind, ind ∈ pool -> fitness_ge s best ind.
Proof.
  intros HP Hdef Hsel ind Hind.
  destruct (naturalSelection_sorted pool) as [Heq Hsorted]; [lia|done|].
  rewrite Heq in Hsel. injection Hsel as Hsel.
  rewrite <- (std_sort_perm _ (fitter s) pool) in Hind, Hdef.
  destruct (std_sort (fitter s) pool) as [|first others]; [by inv Hind|].
  destruct (Z.to_nat (popSize s)) eqn:HP'; [lia|].
  simpl in Hsel. injection Hsel as -> _.
  apply StronglySorted_cons in Hsorted as [Hbest _].
  apply Forall_cons in Hdef as [[f Hf] _].
  apply elem_of_cons in Hind as [->|Hind].
  - exists f, f. repeat split; try done. lia.
  - by apply (proj1 (Forall_forall _ _) Hbest).
Qed.

End SelectionFacts.

Lemma selection_ordering_witness :
  let s := init_solver [MkItem 60 10; MkItem 100 20; MkItem 120 30] 50 2 1 in
  let pool := [[true; false; false]; [false; true; true];
               [true; true; true]; [false; false; true]] in
  exists selected discarded : Population,
    naturalSelection s pool = Ok selected /\
    Z.of_nat (length selected) = 2 /\
    selected ++ discarded ≡ₚ pool /\
    StronglySorted (fitness_ge s) selected /\
    (forall a b, a ∈ selected -> b ∈ discarded -> fitness_ge s a b).
Proof.
  intros s pool. apply (selection_ordering s pool).
  - simpl. lia.
  - repeat constructor.
Defined.

(** ** Mutation *)

Lemma mutate_flips its cap pop maxit (parent : Individual) g :
  (0 < length its)%nat -> Z.of_nat (length its) <= INT_MAX ->
  length parent = length its ->
  exists (k : nat) b,
    parent !! k = Some b /\
    mutate (init_solver its cap pop maxit) parent g =
      Ok (<[k := negb b]> parent, advance g).
Proof.
  intros Hpos Hmax Hlen.
  destruct (breeding_draw its cap pop maxit g Hpos Hmax) as (k & Hd & Hk & _).
  destruct (lookup_lt_is_Some_2 parent k) as [b Hb]; [lia|].
  exists k, b. split; [done|].
  unfold mutate, bindM. rewrite Hd. unfold lift.
  rewrite (vec_get_lookup _ _ _ Hb), vec_set_insert by lia. done.
Qed.

(** ** Breeding *)

Lemma population_draw its cap pop maxit g :
  1 <= pop <= INT_MAX ->
  exists j : nat,
    draw (populationDistribution (init_solver its cap pop maxit)) g =
      Ok (Z.of_nat j, advance g) /\
    (j < Z.to_nat pop)%nat.
Proof.
  intros Hpop. simpl.
  rewrite to_int_id by (unfold in_int, INT_MIN, INT_MAX in *; lia).
  destruct (draw_in_range (MkDist 0 (pop - 1)) g) as (j & Hd & Hj & _);
    simpl in *; [lia|].
  exists (Z.to_nat j). rewrite Z2Nat.id by lia. split; [done|lia].
Qed.

Lemma offspring_length pop rest kids :
  offspring pop rest kids -> length kids = (2 * length rest)%nat.
Proof. induction 1; simpl; lia. Qed.

Lemma offspring_genes pop rest kids (N : nat) :
  Forall (fun ind => length ind = N) pop ->
  Forall (fun ind => length ind = N) rest ->
  offspring pop rest kids -> Forall (fun ind => length ind = N) kids.
Proof.
  intros Hpop Hrest Hoff.
  induction Hoff as [|ind rest kids k b j other c Hk Hj Hc _ IH];
    [constructor|].
  apply Forall_cons in Hrest as [Hind Hrest].
  assert (length other = N) as Hother.
  { apply (proj1 (Forall_forall _ _) Hpop). by eapply list_elem_of_lookup_2. }
  repeat constructor; [| |by apply IH].
  - by rewrite length_insert.
  - rewrite length_app, length_take, length_drop. lia.
Qed.

Section Breeding.

Variables (its : list Item) (cap pop maxit : Z).

Local Abbreviation s := (init_solver its cap pop maxit).

Hypothesis Hgenes : (0 < length its)%nat.
Hypothesis Hcatalog : Z.of_nat (length its) <= INT_MAX.
Hypothesis Hpop : 1 <= pop <= INT_MAX.

Lemma breed_loop_offspring (generation rest newPop : Population) g :
  length generation = Z.to_nat pop ->
  Forall (fun ind => length ind = length its) generation ->
  Forall (fun ind => length ind = length its) rest ->
  exists kids g',
    breed_loop s generation rest newPop g = Ok (newPop ++ kids, g') /\
    offspring generation rest kids.
Proof.
  intros Hsize Hgen. revert newPop g.
  induction rest as [|ind rest IH]; intros newPop g Hrest; cbn [breed_loop].
  { exists [], g. unfold ret. rewrite app_nil_r. split; [done|constructor]. }
  apply Forall_cons in Hrest as [Hind Hrest].
  destruct (mutate_flips its cap pop maxit ind g) as (k & b & Hk & Hm);
    try done.
  unfold bindM at 1. rewrite Hm.
  destruct (population_draw its cap pop maxit (advance g) Hpop)
    as (j & Hd & Hj).
  unfold bindM at 1. rewrite Hd.
  destruct (lookup_lt_is_Some_2 generation j) as [other Hother]; [lia|].
  unfold bindM at 1, lift at 1. rewrite (vec_get_lookup _ _ _ Hother).
  assert (length other = length its) as Hlo.
  { apply (proj1 (Forall_forall _ _) Hgen). by eapply list_elem_of_lookup_2. }
  destruct (crossover_at its cap pop maxit ind other (advance (advance g)))
    as (c & Hc & _ & Hx); try done.
  unfold bindM at 1. rewrite Hx.
  destruct (IH ((newPop ++ [<[k:=negb b]> ind]) ++ [take c ind ++ drop c other])
               (advance (advance (advance g))) Hrest)
    as (kids & g' & Hloop & Hoff).
  exists (<[k:=negb b]> ind :: (take c ind ++ drop c other) :: kids), g'.
  split.
  - rewrite Hloop. by rewrite <- !app_assoc.
  - econstructor; try done. lia.
Qed.

(** What [breed] returns for a generation of [popSize] individuals: the
    generation, then twice as many empty individuals, then the children. *)
Lemma breed_padded (generation : Population) g :
  3 * pop <= INT_MAX ->
  length generation = Z.to_nat pop ->
  Forall (fun ind => length ind = length its) generation ->
  exists kids g',
    breed s generation g =
      Ok (generation ++ replicate (2 * length generation) [] ++ kids, g') /\
    offspring generation generation kids.
Proof.
  intros Hthree Hsize Hgen. unfold breed. simpl.
  rewrite to_int_id by (unfold in_int, INT_MIN, INT_MAX in *; lia).
  destruct (decide _); [lia|].
  destruct (breed_loop_offspring generation generation
              (vec_resize [] (Z.to_nat (pop * 3)) generation) g)
    as (kids & g' & Hloop & Hoff); try done.
  exists kids, g'. split; [|done].
  rewrite Hloop. do 2 f_equal. unfold vec_resize.
  rewrite take_ge by lia. rewrite <- app_assoc. do 2 f_equal.
  f_equal. lia.
Qed.

End Breeding.

(** ** The lengths of the initial population *)

Section Generated.

Variables (its : list Item) (cap pop maxit : Z).

Local Abbreviation s := (init_solver its cap pop maxit).

Hypothesis Hcatalog : Z.of_nat (length its) <= INT_MAX.

Lemma generateIndividual_loop_length n (k : nat) w ind g :
  (k + n = length its)%nat -> length ind = length its ->
  exists ind' g',
    generateIndividual_loop s n (Z.of_nat k) w ind g = Ok (ind', g') /\
    length ind' = length its.
Proof.
  revert k w ind g. induction n as [|n IH]; intros k w ind g Hk Hind.
  { by exists ind, g. }
  cbn [generateIndividual_loop]. unfold bindM at 1.
  destruct (breeding_draw its cap pop maxit g) as (r & -> & _ & _);
    [lia|done|].
  replace (Z.of_nat k + 1) with (Z.of_nat (S k)) by lia.
  destruct (bool_decide _); [|apply IH; lia].
  destruct (lookup_lt_is_Some_2 its k) as [it Hit]; [lia|].
  unfold bindM at 1, lift at 1.
  rewrite (vec_get_lookup _ _ it) by done.
  destruct (decide _); [by eexists _, _|].
  unfold bindM at 1, lift at 1. rewrite vec_set_insert by lia.
  apply IH; [lia|by rewrite length_insert].
Qed.

Lemma generateIndividual_length g :
  exists ind g',
    generateIndividual s g = Ok (ind, g') /\ length ind = length its.
Proof.
  unfold generateIndividual. simpl.
  rewrite to_int_size, Nat2Z.id by done.
  destruct (decide _); [lia|].
  apply (generateIndividual_loop_length (length its) 0); [lia|].
  apply length_replicate.
Qed.

Lemma generateInitialPop_length g :
  exists P g',
    generateInitialPop s g = Ok (P, g') /\
    length P = Z.to_nat pop /\
    Forall (fun ind => length ind = length its) P.
Proof.
  apply (generateInitialPop_loop_all
           (fun ind => length ind = length its) s (Z.to_nat pop) [] g);
    [apply generateIndividual_length|constructor].
Qed.

(** ** The solver loop *)

(** Selection over a pool that holds an empty individual behind
    individuals of full length: the fitness of the empty one reads past
    its end. *)
Lemma naturalSelection_padded `{StdSort} (generation rest : Population) :
  (0 < length its)%nat ->
  (0 < length generation)%nat ->
  Forall (fun ind => length ind = length its) generation ->
  naturalSelection s (generation ++ [] :: rest) = Err OutOfBounds.
Proof.
  intros Hgenes Hgen Hlen. unfold naturalSelection.
  destruct (decide _) as [_|Hsmall].
  - rewrite (traverse_undefined _ _ _ _ OutOfBounds); [done| |].
    + eapply Forall_impl; [exact Hlen|]. intros ind Hind. simpl in Hind.
      apply fitness_defined. simpl. lia.
    + apply fitness_short; simpl; [done|lia].
  - rewrite length_app in Hsmall. simpl in Hsmall. lia.
Qed.

(** Every run that iterates at least once fails in its first selection. *)
Lemma solve_stops_at_selection `{StdSort} g :
  (0 < length its)%nat -> 1 <= pop -> 3 * pop <= INT_MAX -> 1 <= maxit ->
  solve s g = Err OutOfBounds.
Proof.
  intros Hgenes Hpop Hthree Hmaxit. unfold solve, bindM.
  destruct (generateInitialPop_length g) as (P & g1 & -> & Hsize & Hlen).
  simpl maxIterations.
  destruct (Z.to_nat maxit) as [|n] eqn:Hn; [lia|].
  cbn [solve_loop]. unfold bindM.
  destruct (breed_padded its cap pop maxit Hgenes Hcatalog
              ltac:(unfold INT_MAX in *; lia) P g1 Hthree Hsize Hlen)
    as (kids & g2 & -> & _).
  destruct (Z.to_nat pop) as [|m] eqn:Hm; [lia|].
  rewrite Hsize. replace (2 * S m)%nat with (S (S (2 * m))) by lia.
  cbn [replicate app]. unfold lift at 1.
  rewrite naturalSelection_padded; [done|done|lia|done].
Qed.

End Generated.

(** ** Runs without iterations *)

Lemma solve_no_iteration `{StdSort} s g P g' :
  maxIterations s <= 0 ->
  generateInitialPop s g = Ok (P, g') ->
  solve s g = lift (vec_get P 0) g'.
Proof.
  intros Hmax HP. unfold solve, bindM. rewrite HP.
  replace (Z.to_nat (maxIterations s)) with 0%nat by lia. done.
Qed.

(** ** Configurations that the constructor lets through *)

Section Unchecked.

Context `{StdSort}.

Variables (its : list Item) (cap pop maxit : Z).

Local Abbreviation s := (init_solver its cap pop maxit).

Lemma generateInitialPop_nobody g :
  pop <= 0 -> generateInitialPop s g = Ok ([], g).
Proof.
  intros Hpop. unfold generateInitialPop. simpl.
  by replace (Z.to_nat pop) with 0%nat by lia.
Qed.

Lemma naturalSelection_negative (pool : Population) :
  pop < 0 -> exists e, naturalSelection s pool = Err e.
Proof.
  intros Hpop. unfold naturalSelection.
  destruct (if decide (2 <= length pool)%nat
            then traverse (fitness s) pool else Ok []) as [fs|e]; simpl.
  - destruct (decide _); [by eexists|lia].
  - by eexists.
Qed.

Lemma breed_nobody g :
  (exists e, breed s [] g = Err e) \/
  (exists n, breed s [] g = Ok (replicate n [], g) /\
             (pop = 0 -> n = 0%nat)).
Proof.
  unfold breed. simpl.
  destruct (decide _).
  { left. exists LengthError. reflexivity. }
  right. exists (Z.to_nat (to_int (pop * 3))). split.
  - unfold vec_resize. simpl. by rewrite take_nil, Nat.sub_0_r.
  - by intros ->.
Qed.

Lemma solve_loop_nobody n g :
  pop <= 0 ->
  (exists e, solve_loop s n [] g = Err e) \/ solve_loop s n [] g = Ok ([], g).
Proof.
  intros Hpop. induction n as [|n IH]; [by right|].
  destruct (breed_nobody g) as [[e He]|(m & He & Hm)].
  { left. exists e. cbn [solve_loop]. unfold bindM. by rewrite He. }
  destruct (decide (pop = 0)) as [Hzero|Hneg].
  - assert (naturalSelection s [] = Ok []) as Hsel.
    { unfold naturalSelection. simpl.
      rewrite (Permutation_length (std_sort_perm _ (fitter s) [])).
      destruct (decide _) as [Hbad|_]; [simpl in Hbad; lia|].
      destruct (decide _) as [_|Hbad]; [|simpl in Hbad; lia].
      by rewrite Hzero. }
    assert (solve_loop s (S n) [] g = solve_loop s n [] g) as ->; [|done].
    cbn [solve_loop]. unfold bindM, lift.
    rewrite He, (Hm Hzero). cbn [replicate]. by rewrite Hsel.
  - destruct (naturalSelection_negative (replicate m [])) as [e Hsel]; [lia|].
    left. exists e. cbn [solve_loop]. unfold bindM, lift.
    by rewrite He, Hsel.
Qed.

Lemma solve_nobody g : pop <= 0 -> exists e, solve s g = Err e.
Proof.
  intros Hpop. unfold solve, bindM.
  rewrite generateInitialPop_nobody by done.
  destruct (solve_loop_nobody (Z.to_nat (maxIterations s)) g Hpop)
    as [[e ->]| ->]; by eexists.
Qed.

End Unchecked.

(** C4 (as amended). Construction rejects nothing: for every population
    size and iteration count, also populationSize <= 0 and
    iterationCount < 0, the constructor returns a solver that stores the
    values as given. A population size <= 0 shows later, when [solve]
    fails on every run; an iteration count < 0 makes [solve] run no
    iteration, as the count 0 does. *)
Theorem construct_checks_nothing `{StdSort} its cap pop maxit :
  exists s,
    construct its cap pop maxit = Ok s /\
    items s = its /\ capacity s = cap /\
    popSize s = pop /\ maxIterations s = maxit /\
    (pop <= 0 -> forall g, exists e, solve s g = Err e) /\
    (maxit < 0 ->
     forall g, solve s g = solve (init_solver its cap pop 0) g).
Proof.
  exists (init_solver its cap pop maxit). repeat split.
  - intros Hpop g. by apply solve_nobody.
  - intros Hmaxit g. unfold solve. simpl.
    by replace (Z.to_nat maxit) with 0%nat by lia.
Qed.

(** C4 fails as stated: an iteration count of -1 (with a population size
    of 1) is not rejected at construction, and the solver it gives is
    usable: [solve] returns a selection. *)
Lemma construct_accepts_invalid :
  construct [MkItem 1 1] 1 1 (-1) = Ok (init_solver [MkItem 1 1] 1 1 (-1)) /\
  ~ (exists e, construct [MkItem 1 1] 1 1 (-1) = Err e) /\
  solve (init_solver [MkItem 1 1] 1 1 (-1)) (rng_of [0]) =
    Ok ([false], advance (rng_of [0])).
Proof.
  split; [reflexivity|]. split; [|reflexivity].
  intros [e He]. discriminate He.
Qed.

(** ** The empty catalog *)

Section EmptyCatalog.

Context `{StdSort}.

Variables (cap pop maxit : Z).

Local Abbreviation s := (init_solver [] cap pop maxit).

Lemma fitness_nothing : fitness s [] = Ok 0.
Proof. unfold fitness. simpl. by destruct (decide _). Qed.

Lemma generateInitialPop_loop_empty n acc g :
  generateInitialPop_loop s n acc g = Ok (acc ++ replicate n [], g).
Proof.
  revert acc. induction n as [|n IH]; intros acc; simpl.
  { by rewrite app_nil_r. }
  unfold bindM.
  change (generateIndividual s g) with (@Ok (list bool * Rng) ([], g)).
  cbv beta iota. rewrite IH. by rewrite <- app_assoc.
Qed.

Lemma breed_empty_catalog (generation : Population) g :
  (0 < length generation)%nat -> exists e, breed s generation g = Err e.
Proof.
  intros Hgen. unfold breed.
  destruct (decide _).
  { exists LengthError. reflexivity. }
  destruct generation as [|ind rest]; [simpl in Hgen; lia|].
  cbn [breed_loop]. unfold bindM at 1, mutate, bindM at 1.
  rewrite draw_empty by (by vm_compute). by eexists.
Qed.

End EmptyCatalog.

(** C5 (as amended). With an empty catalog and a population size >= 1,
    the fitness of the empty individual is 0 and the initial population
    consists of empty individuals, produced without a draw. A run without
    iterations then returns the empty selection. A run that iterates does
    not return: breeding mutates first, and mutation draws its index from
    the empty range [0, N). *)
Theorem empty_catalog_run `{StdSort} cap pop maxit (g : Rng) :
  1 <= pop ->
  let s := init_solver [] cap pop maxit in
  fitness s [] = Ok 0 /\
  generateInitialPop s g = Ok (replicate (Z.to_nat pop) [], g) /\
  (maxit <= 0 -> solve s g = Ok ([], g)) /\
  (1 <= maxit -> exists e, solve s g = Err e).
Proof.
  intros Hpop s.
  assert (generateInitialPop s g = Ok (replicate (Z.to_nat pop) [], g)) as HP
    by apply generateInitialPop_loop_empty.
  split; [apply fitness_nothing|]. split; [done|]. subst s. split.
  - intros Hmaxit. rewrite (solve_no_iteration _ g _ g) by done.
    destruct (Z.to_nat pop) eqn:Hn; [lia|done].
  - intros Hmaxit. unfold solve, bindM. rewrite HP. simpl maxIterations.
    destruct (Z.to_nat maxit) as [|n] eqn:Hn; [lia|].
    cbn [solve_loop]. unfold bindM.
    destruct (breed_empty_catalog cap pop maxit
                (replicate (Z.to_nat pop) []) g) as [e ->].
    + rewrite length_replicate. lia.
    + by eexists.
Qed.

Lemma empty_catalog_run_witness :
  let s := init_solver [] 50 10 0 in
  fitness s [] = Ok 0 /\
  generateInitialPop s (rng_of []) = Ok (replicate 10 [], rng_of []) /\
  (0 <= 0 -> solve s (rng_of []) = Ok ([], rng_of [])) /\
  (1 <= 0 -> exists e, solve s (rng_of []) = Err e).
Proof.
  apply (empty_catalog_run 50 10 0 (rng_of [])). lia.
Defined.

(** C5 fails as stated: over the empty catalog, a run with one iteration
    does not return the empty selection; it stops in mutation. *)
Lemma empty_catalog_breeding_fails :
  solve (init_solver [] 50 1 1) (rng_of []) = Err EmptyRange /\
  ~ (exists g', solve (init_solver [] 50 1 1) (rng_of []) = Ok ([], g')).
Proof.
  assert (solve (init_solver [] 50 1 1) (rng_of []) = Err EmptyRange) as Hrun
    by reflexivity.
  split; [exact Hrun|]. intros [g' Hg']. rewrite Hrun in Hg'. discriminate Hg'.
Qed.

(** ** Where the code leaves the specification *)

(** C1 fails on the code. For a catalog of one item and a population size
    of 1, the generation [[false]] is bred into a pool of 5 individuals,
    not 3: the generation, two empty individuals left by
    [resize(popSize * 3)], and only then the mutant and the crossover
    child. *)
Theorem breed_pool_is_padded :
  let s := init_solver [MkItem 1 1] 1 1 1 in
  exists pool g',
    breed s [[false]] (rng_of [0; 0; 0]) = Ok (pool, g') /\
    pool = [[false]; []; []; [true]; [false]] /\
    length pool = 5%nat /\
    length pool <> (3 * length [[false]])%nat.
Proof.
  intros s. eexists _, _. split; [reflexivity|].
  split; [reflexivity|]. split; [reflexivity|]. simpl. lia.
Qed.

(** C2 fails on the code. For the same input the expanded pool holds
    individuals of length 0, while the catalog has one item. *)
Theorem breed_pool_has_empty_individuals :
  let s := init_solver [MkItem 1 1] 1 1 1 in
  exists pool g',
    breed s [[false]] (rng_of [0; 0; 0]) = Ok (pool, g') /\
    length (items s) = 1%nat /\
    pool !! 1%nat = Some [] /\
    ~ Forall (fun ind => length ind = length (items s)) pool.
Proof.
  intros s. eexists _, _. split; [reflexivity|].
  split; [reflexivity|]. split; [reflexivity|].
  intros Hall. apply Forall_cons in Hall as [_ Hall].
  apply Forall_cons in Hall as [Hempty _]. discriminate Hempty.
Qed.

(** C3 fails on the code. Without iterations [solve] returns the first
    individual of the initial population, which is not sorted: here the
    first one has fitness 0 and the second one fitness 15. *)
Theorem solve_zero_iterations_returns_first :
  let s := init_solver [MkItem 10 1; MkItem 5 1] 2 2 0 in
  let g := rng_of [0; 0; 1; 1] in
  exists g',
    generateInitialPop s g = Ok ([[false; false]; [true; true]], g') /\
    solve s g = Ok ([false; false], g') /\
    fitness s [false; false] = Ok 0 /\
    fitness s [true; true] = Ok 15.
Proof.
  intros s g. eexists. split; [reflexivity|].
  split; [reflexivity|]. split; reflexivity.
Qed.

(** * Further properties of the operations *)

(** ** Fitness: what it reads and what it returns *)

Lemma selected_sum_nonneg f its ind :
  Forall (fun it => 0 <= f it) its -> 0 <= selected_sum f its ind.
Proof.
  intros Hpos. revert ind.
  induction Hpos as [|it its Hit _ IH]; intros [|b ind]; simpl; try lia.
  specialize (IH ind). destruct b; lia.
Qed.

Section FitnessReads.

Variable s : KnapsackSolver.

(** The loop of [fitness] looks at the genes it indexes and at nothing
    else. *)
Lemma fitness_loop_prefix ind extra n k acc :
  (k + n <= length ind)%nat ->
  for_range n (Z.of_nat k) (fitness_body s (ind ++ extra)) acc =
  for_range n (Z.of_nat k) (fitness_body s ind) acc.
Proof.
  revert k acc. induction n as [|n IH]; intros k acc Hk; [done|].
  cbn [for_range].
  assert (fitness_body s (ind ++ extra) (Z.of_nat k) acc =
          fitness_body s ind (Z.of_nat k) acc) as ->.
  { unfold fitness_body, vec_get.
    destruct (decide _); [|done].
    rewrite Nat2Z.id, lookup_app_l by lia. done. }
  destruct (fitness_body s ind (Z.of_nat k) acc) as [acc'|e]; [|done].
  cbn [bind]. replace (Z.of_nat k + 1) with (Z.of_nat (S k)) by lia.
  apply IH. lia.
Qed.

(** X1. [fitness] is defined exactly on the individuals that have at least
    N genes: on a shorter one the loop reads past its end, and the result
    is the out-of-bounds error. *)
Theorem fitness_defined_iff (ind : Individual) :
  Z.of_nat (length (items s)) <= INT_MAX ->
  ((exists f, fitness s ind = Ok f) <->
     (length (items s) <= length ind)%nat) /\
  ((length ind < length (items s))%nat -> fitness s ind = Err OutOfBounds).
Proof.
  intros Hmax. split; [split|].
  - intros [f Hf]. destruct (decide (length (items s) <= length ind)%nat);
      [done|].
    rewrite fitness_short in Hf by (done || lia). discriminate Hf.
  - apply fitness_defined.
  - by apply fitness_short.
Qed.

(** X2. [fitness] ignores every gene behind the first N: genes appended to
    an individual of at least N genes do not change its fitness. *)
Theorem fitness_ignores_tail (ind extra : Individual) :
  (length (items s) <= length ind)%nat ->
  fitness s (ind ++ extra) = fitness s ind.
Proof.
  intros Hlen. unfold fitness.
  pose proof (to_int_le (Z.of_nat (length (items s)))).
  pose proof (fitness_loop_prefix ind extra
                (Z.to_nat (to_int (Z.of_nat (length (items s))))) 0 (0, 0))
    as Hpre.
  change (Z.of_nat 0) with 0 in Hpre. rewrite Hpre by lia. done.
Qed.

(** X3. The fitness of an individual of length N lies between 0 and the
    total value of the catalog when the values are non-negative; in
    general its absolute value is at most the total of the absolute
    values. *)
Theorem fitness_bounds (ind : Individual) :
  fits_int (items s) ->
  length ind = length (items s) ->
  exists f,
    fitness s ind = Ok f /\
    Z.abs f <= abs_total value (items s) /\
    (Forall (fun it => 0 <= value it) (items s) -> 0 <= f).
Proof.
  intros Hfit Hlen. rewrite fitness_eq by done.
  eexists. split; [done|].
  pose proof (selected_sum_bound value (items s) ind) as Hb.
  pose proof (abs_total_nonneg value (items s)) as Hn.
  split.
  - destruct (decide _); lia.
  - intros Hpos. pose proof (selected_sum_nonneg value _ ind Hpos).
    destruct (decide _); lia.
Qed.

(** X4. On a pool of individuals of at least N genes, the comparator that
    selection hands to [std::sort] is a strict weak ordering, as the sort
    requires of it: it is irreflexive and transitive, and being unordered
    either way is transitive. *)
Theorem comparator_strict_weak (pool : Population) :
  Forall (fun ind => (length (items s) <= length ind)%nat) pool ->
  StrictWeakOn (fitter s) pool.
Proof.
  intros Hlen. apply fitter_swo.
  eapply Forall_impl; [exact Hlen|]. intros ind Hind. simpl in Hind.
  by apply fitness_defined.
Qed.

End FitnessReads.

Lemma fitness_defined_iff_witness :
  let s := init_solver [MkItem 60 10; MkItem 100 20; MkItem 120 30] 50 10 200 in
  fitness s [true; false] = Err OutOfBounds.
Proof.
  intros s. apply (fitness_defined_iff s [true; false]).
  - unfold INT_MAX. simpl. lia.
  - simpl. lia.
Defined.

Lemma fitness_ignores_tail_witness :
  let s := init_solver [MkItem 60 10; MkItem 100 20; MkItem 120 30] 50 10 200 in
  fitness s ([false; true; true] ++ [true; true]) = fitness s [false; true; true].
Proof.
  intros s. apply (fitness_ignores_tail s [false; true; true] [true; true]).
  simpl. lia.
Defined.

Lemma fitness_bounds_witness :
  let s := init_solver [MkItem 60 10; MkItem 100 20; MkItem 120 30] 50 10 200 in
  exists f, fitness s [false; true; true] = Ok f /\
            Z.abs f <= 280 /\
            (Forall (fun it => 0 <= value it) (items s) -> 0 <= f).
Proof.
  intros s. apply (fitness_bounds s [false; true; true]).
  - unfold fits_int, INT_MAX. simpl. lia.
  - reflexivity.
Defined.

Lemma comparator_strict_weak_witness :
  let s := init_solver [MkItem 60 10; MkItem 100 20; MkItem 120 30] 50 10 200 in
  StrictWeakOn (fitter s) [[false; true; true]; [true; true; true]].
Proof.
  intros s. apply (comparator_strict_weak s).
  repeat constructor; simpl; lia.
Defined.

(** ** Mutation *)

Section MutationFacts.

Variables (its : list Item) (cap pop maxit : Z).

Local Abbreviation s := (init_solver its cap pop maxit).

Hypothesis Hgenes : (0 < length its)%nat.
Hypothesis Hcatalog : Z.of_nat (length its) <= INT_MAX.

(** [mutate] at the index it draws, for a parent of any length. *)
Lemma mutate_at (parent : Individual) g :
  exists k : nat,
    (k < length its)%nat /\
    Z.of_nat k = raw g (pos g) mod Z.of_nat (length its) /\
    mutate s parent g =
      match parent !! k with
      | Some b => Ok (<[k := negb b]> parent, advance g)
      | None => Err OutOfBounds
      end.
Proof.
  destruct (breeding_draw its cap pop maxit g Hgenes Hcatalog)
    as (k & Hd & Hk & Hr).
  exists k. split; [done|]. split; [done|]. clear Hr.
  unfold mutate, bindM. rewrite Hd. unfold lift.
  destruct (parent !! k) as [b|] eqn:Hb.
  - apply lookup_lt_Some in Hb as Hlt.
    by rewrite (vec_get_lookup _ _ _ Hb), vec_set_insert.
  - apply lookup_ge_None in Hb. by rewrite vec_get_past by lia.
Qed.

(** X5. Mutation of a parent of length N returns a child of the same
    length that differs from the parent in exactly one gene, the one at
    the drawn index, which is negated; one number is drawn. *)
Theorem mutate_flips_one_gene (parent : Individual) (g : Rng) :
  length parent = length its ->
  exists (k : nat) (child : Individual),
    Z.of_nat k = raw g (pos g) mod Z.of_nat (length its) /\
    (k < length its)%nat /\
    mutate s parent g = Ok (child, advance g) /\
    length child = length parent /\
    child !! k = negb <$> parent !! k /\
    (forall i, i <> k -> child !! i = parent !! i).
Proof.
  intros Hlen. destruct (mutate_at parent g) as (k & Hk & Hr & Hm).
  destruct (lookup_lt_is_Some_2 parent k) as [b Hb]; [lia|].
  rewrite Hb in Hm.
  exists k, (<[k := negb b]> parent).
  split; [done|]. clear Hr. split; [done|]. split; [done|].
  split; [apply length_insert|]. split.
  - rewrite Hb. apply list_lookup_insert_eq. lia.
  - intros i Hi. by apply list_lookup_insert_ne.
Qed.

(** X6. Mutating twice at the same index gives the parent back: when the
    next two numbers of the oracle agree modulo N, the mutant of the
    mutant is the parent. *)
Theorem mutate_twice_restores (parent : Individual) (g : Rng) :
  length parent = length its ->
  raw g (pos g) mod Z.of_nat (length its) =
    raw g (S (pos g)) mod Z.of_nat (length its) ->
  exists child : Individual,
    mutate s parent g = Ok (child, advance g) /\
    mutate s child (advance g) = Ok (parent, advance (advance g)).
Proof.
  intros Hlen Hsame.
  destruct (mutate_at parent g) as (k & Hk & Hr & Hm).
  destruct (lookup_lt_is_Some_2 parent k) as [b Hb]; [lia|].
  rewrite Hb in Hm.
  exists (<[k := negb b]> parent). split; [done|].
  destruct (mutate_at (<[k := negb b]> parent) (advance g))
    as (k' & Hk' & Hr' & Hm').
  assert (k' = k) as ->.
  { apply Nat2Z.inj. rewrite Hr, Hr'. simpl. by rewrite Hsame. }
  clear Hr Hr' Hsame.
  rewrite list_lookup_insert_eq in Hm' by lia.
  rewrite Hm'. do 2 f_equal.
  rewrite list_insert_insert_eq, negb_involutive.
  by apply list_insert_id.
Qed.

(** X7. Mutation indexes the parent with a number drawn from [0, N), not
    from the parent's own length: it succeeds exactly when the drawn index
    is inside the parent, and is an out-of-bounds access otherwise. On the
    empty individual it always is. *)
Theorem mutate_bounds (parent : Individual) (g : Rng) :
  let k := Z.to_nat (raw g (pos g) mod Z.of_nat (length its)) in
  ((exists r, mutate s parent g = Ok r) <-> (k < length parent)%nat) /\
  ((length parent <= k)%nat -> mutate s parent g = Err OutOfBounds) /\
  mutate s [] g = Err OutOfBounds.
Proof.
  intros k.
  assert (forall p : Individual,
             mutate s p g =
               match p !! k with
               | Some b => Ok (<[k := negb b]> p, advance g)
               | None => Err OutOfBounds
               end) as Hat.
  { intros p. destruct (mutate_at p g) as (k' & _ & Hr & Hm).
    assert (k = k') as -> by (unfold k; rewrite <- Hr; lia). done. }
  split; [split|split].
  - intros [r Hr]. rewrite Hat in Hr.
    destruct (parent !! k) eqn:Hb; [|discriminate Hr].
    by apply lookup_lt_Some in Hb.
  - intros Hlt. destruct (lookup_lt_is_Some_2 parent k Hlt) as [b Hb].
    rewrite Hat, Hb. by eexists.
  - intros Hge. by rewrite Hat, (lookup_ge_None_2 parent k Hge).
  - by rewrite Hat.
Qed.

End MutationFacts.

Lemma mutate_flips_one_gene_witness :
  exists (k : nat) (child : Individual),
    Z.of_nat k = 7 mod 3 /\ (k < 3)%nat /\
    mutate (init_solver [MkItem 60 10; MkItem 100 20; MkItem 120 30] 50 10 200)
           [true; true; false] (rng_of [7]) = Ok (child, advance (rng_of [7])) /\
    length child = 3%nat /\
    child !! k = negb <$> [true; true; false] !! k /\
    (forall i, i <> k -> child !! i = [true; true; false] !! i).
Proof.
  assert (0 < length [MkItem 60 10; MkItem 100 20; MkItem 120 30])%nat
    as Hgenes by (simpl; lia).
  assert (Z.of_nat (length [MkItem 60 10; MkItem 100 20; MkItem 120 30])
          <= INT_MAX) as Hcatalog by (unfold INT_MAX; simpl; lia).
  exact (mutate_flips_one_gene _ 50 10 200 Hgenes Hcatalog
           [true; true; false] (rng_of [7]) eq_refl).
Defined.

Lemma mutate_twice_restores_witness :
  exists child : Individual,
    mutate (init_solver [MkItem 60 10; MkItem 100 20; MkItem 120 30] 50 10 200)
           [true; true; false] (rng_of [7; 4]) =
      Ok (child, advance (rng_of [7; 4])) /\
    mutate (init_solver [MkItem 60 10; MkItem 100 20; MkItem 120 30] 50 10 200)
           child (advance (rng_of [7; 4])) =
      Ok ([true; true; false], advance (advance (rng_of [7; 4]))).
Proof.
  assert (0 < length [MkItem 60 10; MkItem 100 20; MkItem 120 30])%nat
    as Hgenes by (simpl; lia).
  assert (Z.of_nat (length [MkItem 60 10; MkItem 100 20; MkItem 120 30])
          <= INT_MAX) as Hcatalog by (unfold INT_MAX; simpl; lia).
  exact (mutate_twice_restores _ 50 10 200 Hgenes Hcatalog
           [true; true; false] (rng_of [7; 4]) eq_refl eq_refl).
Defined.

Lemma mutate_bounds_witness :
  mutate (init_solver [MkItem 60 10; MkItem 100 20; MkItem 120 30] 50 10 200)
         [] (rng_of [7]) = Err OutOfBounds.
Proof.
  assert (0 < length [MkItem 60 10; MkItem 100 20; MkItem 120 30])%nat
    as Hgenes by (simpl; lia).
  assert (Z.of_nat (length [MkItem 60 10; MkItem 100 20; MkItem 120 30])
          <= INT_MAX) as Hcatalog by (unfold INT_MAX; simpl; lia).
  exact (proj2 (proj2 (mutate_bounds _ 50 10 200 Hgenes Hcatalog
                         [] (rng_of [7])))).
Defined.

(** ** Crossover of parents of any length *)

(** A copy loop that runs past the end of the parent or of the child. *)
Lemma copy_loop_past parent n i child :
  (i <= length parent)%nat -> (i <= length child)%nat ->
  (length parent `min` length child < i + n)%nat ->
  for_range n (Z.of_nat i) (copy_gene parent) child = Err OutOfBounds.
Proof.
  revert i child. induction n as [|n IH]; intros i child Hp Hc Hpast; [lia|].
  cbn [for_range]. unfold copy_gene at 1.
  destruct (parent !! i) as [b|] eqn:Hb.
  - rewrite (vec_get_lookup _ _ _ Hb). cbn [bind].
    apply lookup_lt_Some in Hb.
    destruct (decide (i < length child)%nat) as [Hlt|Hge].
    + rewrite vec_set_insert by done. cbn [bind].
      replace (Z.of_nat i + 1) with (Z.of_nat (S i)) by lia.
      apply IH; rewrite ?length_insert; lia.
    + unfold vec_set. destruct (decide _); [lia|done].
  - apply lookup_ge_None in Hb. by rewrite vec_get_past by lia.
Qed.

Section CrossoverFacts.

Variables (its : list Item) (cap pop maxit : Z).

Local Abbreviation s := (init_solver its cap pop maxit).

Hypothesis Hgenes : (0 < length its)%nat.
Hypothesis Hcatalog : Z.of_nat (length its) <= INT_MAX.

(** X8. Crossover sizes the child after the first parent and copies the
    second parent up to the second parent's own end. With the drawn index
    k: when k and the second parent fit into the first parent's length,
    the child is parent 1 before k, parent 2 from k on, and unselected
    genes up to the length of parent 1; when the index is past the end of
    parent 1, or parent 2 is longer than parent 1, a copy indexes out of
    bounds. *)
Theorem crossover_any_lengths (parent1 parent2 : Individual) (g : Rng) :
  let k := Z.to_nat (raw g (pos g) mod Z.of_nat (length its)) in
  ((k <= length parent1)%nat -> (length parent2 <= length parent1)%nat ->
   crossover s parent1 parent2 g =
     Ok (take k parent1 ++ drop k parent2 ++
         replicate (length parent1 - k `max` length parent2) false,
         advance g)) /\
  ((length parent1 < k)%nat \/ (length parent1 < length parent2)%nat ->
   crossover s parent1 parent2 g = Err OutOfBounds).
Proof.
  intros k.
  destruct (breeding_draw its cap pop maxit g Hgenes Hcatalog)
    as (k' & Hd & Hk & Hr).
  assert (k = k') as <- by (unfold k; rewrite <- Hr; lia). clear Hr.
  assert (crossover s parent1 parent2 g =
          lift (bind (for_range k 0 (copy_gene parent1)
                                (replicate (length parent1) false))
                     (fun child =>
                        for_range (length parent2 - k) (Z.of_nat k)
                                  (copy_gene parent2) child))
               (advance g)) as ->.
  { unfold crossover, bindM. rewrite Hd. rewrite Nat2Z.id.
    unfold to_size_t. rewrite Z.mod_small by (unfold INT_MAX in *; lia).
    by replace (Z.to_nat (Z.of_nat (length parent2) - Z.of_nat k))
      with (length parent2 - k)%nat by lia. }
  clear Hd.
  pose proof (copy_loop_past parent1 k 0 (replicate (length parent1) false))
    as P1.
  change (Z.of_nat 0) with 0 in P1. rewrite length_replicate in P1.
  set (c1 := take k parent1 ++ replicate (length parent1 - k) false).
  assert ((k <= length parent1)%nat ->
          for_range k 0 (copy_gene parent1)
                    (replicate (length parent1) false) = Ok c1) as L1.
  { intros Hk1.
    pose proof (copy_loop parent1 k 0 (replicate (length parent1) false)) as L.
    change (Z.of_nat 0) with 0 in L.
    rewrite L by (rewrite ?length_replicate; lia).
    by rewrite drop_0, drop_replicate. }
  assert ((k <= length parent1)%nat -> length c1 = length parent1) as Hc1.
  { intros Hk1. unfold c1. rewrite length_app, length_take, length_replicate.
    lia. }
  split.
  - intros Hk1 H21. rewrite L1 by done. cbn [bind].
    destruct (decide (length parent2 <= k)%nat) as [Hshort|Hlong].
    + replace (length parent2 - k)%nat with 0%nat by lia. cbn [for_range lift].
      rewrite (drop_ge parent2) by done. cbn [app].
      by replace (k `max` length parent2)%nat with k by lia.
    + rewrite copy_loop by (rewrite ?Hc1; lia).
      cbn [lift]. do 2 f_equal. unfold c1.
      rewrite take_app_length' by (rewrite length_take; lia).
      rewrite (take_ge (drop k parent2)) by (rewrite length_drop; lia).
      rewrite drop_app_ge by (rewrite length_take; lia).
      rewrite drop_replicate, length_take. do 3 f_equal. lia.
  - intros [Hk1|H21].
    + rewrite P1 by lia. done.
    + destruct (decide (k <= length parent1)%nat) as [Hle|Hgt];
        [|by rewrite P1 by lia].
      rewrite L1 by done. cbn [bind].
      rewrite copy_loop_past by (rewrite ?Hc1; lia). done.
Qed.

End CrossoverFacts.

Lemma crossover_any_lengths_witness :
  crossover (init_solver [MkItem 60 10; MkItem 100 20; MkItem 120 30] 50 10 200)
            [true; true; true; true] [false; false] (rng_of [7]) =
    Ok ([true; false; false; false], advance (rng_of [7])) /\
  crossover (init_solver [MkItem 60 10; MkItem 100 20; MkItem 120 30] 50 10 200)
            [true; true] [false; false; false] (rng_of [7]) =
    Err OutOfBounds.
Proof.
  assert (0 < length [MkItem 60 10; MkItem 100 20; MkItem 120 30])%nat
    as Hgenes by (simpl; lia).
  assert (Z.of_nat (length [MkItem 60 10; MkItem 100 20; MkItem 120 30])
          <= INT_MAX) as Hcatalog by (unfold INT_MAX; simpl; lia).
  split.
  - apply (proj1 (crossover_any_lengths _ 50 10 200 Hgenes Hcatalog
                    [true; true; true; true] [false; false] (rng_of [7])));
      vm_compute; lia.
  - apply (proj2 (crossover_any_lengths _ 50 10 200 Hgenes Hcatalog
                    [true; true] [false; false; false] (rng_of [7]))).
    right. simpl. lia.
Defined.

(** ** Random individuals at the edges *)

Lemma abs_total_elem f (its : list Item) it :
  it ∈ its -> Z.abs (f it) <= abs_total f its.
Proof.
  induction 1 as [it its|it it' its _ IH]; simpl;
    pose proof (abs_total_nonneg f its); lia.
Qed.

Section GenerationEdges.

Variables (its : list Item) (cap pop maxit : Z).

Local Abbreviation s := (init_solver its cap pop maxit).

(** With a capacity below every weight the first gene whose coin shows
    heads leaves the loop, and no gene is ever set. *)
Lemma generateIndividual_loop_nothing n (k : nat) ind g :
  Z.of_nat (length its) <= INT_MAX ->
  abs_total weight its <= INT_MAX ->
  Forall (fun it => cap < weight it) its ->
  (k + n = length its)%nat ->
  exists g', generateIndividual_loop s n (Z.of_nat k) 0 ind g = Ok (ind, g').
Proof.
  intros Hcatalog Hw Hheavy. revert k g.
  induction n as [|n IH]; intros k g Hk; [by exists g|].
  cbn [generateIndividual_loop]. unfold bindM at 1.
  destruct (breeding_draw its cap pop maxit g) as (r & -> & _ & _);
    [lia|done|].
  replace (Z.of_nat k + 1) with (Z.of_nat (S k)) by lia.
  destruct (bool_decide _); [|apply IH; lia].
  destruct (lookup_lt_is_Some_2 its k) as [it Hit]; [lia|].
  unfold bindM at 1, lift at 1.
  rewrite (vec_get_lookup _ _ it) by done.
  apply list_elem_of_lookup_2 in Hit.
  pose proof (abs_total_elem weight its it Hit).
  pose proof (proj1 (Forall_forall _ _) Hheavy it Hit) as Hc. simpl in Hc.
  rewrite to_int_id by (unfold in_int, INT_MIN, INT_MAX in *; lia).
  change (capacity s) with cap. destruct (decide _); [by eexists|lia].
Qed.

(** X9. When every item weighs more than the capacity (in particular when
    the capacity is negative and the weights are not), random generation
    returns the all-unselected individual, whatever the oracle: the first
    selected coin leaves the loop before the gene is set. *)
Theorem generateIndividual_nothing_fits (g : Rng) :
  fits_int its ->
  Forall (fun it => cap < weight it) its ->
  exists g',
    generateIndividual s g = Ok (replicate (length its) false, g').
Proof.
  intros (Hcatalog & _ & Hw) Hheavy. unfold generateIndividual. simpl items.
  rewrite to_int_size, Nat2Z.id by done.
  destruct (decide _); [lia|].
  by apply (generateIndividual_loop_nothing (length its) 0).
Qed.

End GenerationEdges.

Lemma generateIndividual_nothing_fits_witness :
  exists g',
    generateIndividual
      (init_solver [MkItem 60 10; MkItem 100 20; MkItem 120 30] 5 10 200)
      (rng_of [1; 1; 1]) = Ok ([false; false; false], g').
Proof.
  apply (generateIndividual_nothing_fits
           [MkItem 60 10; MkItem 100 20; MkItem 120 30] 5 10 200).
  - unfold fits_int, INT_MAX. simpl. lia.
  - repeat constructor; simpl; lia.
Defined.

(** ** The catalog of one item *)

Section OneItem.

Context `{StdSort}.

Variables (it : Item) (cap pop maxit : Z).

Local Abbreviation s := (init_solver [it] cap pop maxit).

Lemma one_item_draw g :
  draw (breedingDistribution s) g = Ok (0, advance g).
Proof.
  destruct (breeding_draw [it] cap pop maxit g) as (k & Hd & Hk & _);
    [simpl; lia|unfold INT_MAX; simpl; lia|].
  simpl in Hk. by replace k with 0%nat in Hd by lia.
Qed.

Lemma one_item_individual g :
  generateIndividual s g = Ok ([false], advance g).
Proof.
  unfold generateIndividual.
  change (to_int (Z.of_nat (length (items s)))) with 1.
  destruct (decide _); [lia|].
  change (Z.to_nat 1) with 1%nat.
  cbn [generateIndividual_loop replicate]. unfold bindM.
  by rewrite one_item_draw.
Qed.

Lemma one_item_population n acc g :
  exists g',
    generateInitialPop_loop s n acc g = Ok (acc ++ replicate n [false], g').
Proof.
  revert acc g. induction n as [|n IH]; intros acc g.
  { exists g. simpl. by rewrite app_nil_r. }
  cbn [generateInitialPop_loop]. unfold bindM. rewrite one_item_individual.
  destruct (IH (acc ++ [[false]]) (advance g)) as [g' ->].
  exists g'. by rewrite <- app_assoc.
Qed.

(** X10. Over a catalog of one item the coin of random generation never
    shows heads: the coin is the parity of an index drawn from [0, N), and
    for N = 1 that index is 0. Every generated individual is [[false]],
    so is the whole initial population, and a run without iterations
    returns [[false]] even when the item fits the capacity. *)
Theorem one_item_never_selected (g : Rng) :
  generateIndividual s g = Ok ([false], advance g) /\
  (exists g', generateInitialPop s g =
                Ok (replicate (Z.to_nat pop) [false], g')) /\
  (1 <= pop -> maxit <= 0 -> exists g', solve s g = Ok ([false], g')).
Proof.
  split; [apply one_item_individual|].
  destruct (one_item_population (Z.to_nat pop) [] g) as [g' Hpop].
  split; [by exists g'|].
  intros Hp Hm. exists g'.
  rewrite (solve_no_iteration s g _ g' Hm Hpop).
  destruct (Z.to_nat pop) eqn:Hn; [lia|done].
Qed.

(** X11. With one gene the operators are degenerate but stay in bounds:
    mutation flips the gene, and crossover returns the second parent, for
    every oracle. *)
Theorem one_item_operators (a b : bool) (g : Rng) :
  mutate s [a] g = Ok ([negb a], advance g) /\
  crossover s [a] [b] g = Ok ([b], advance g).
Proof.
  split.
  - unfold mutate, bindM. by rewrite one_item_draw.
  - unfold crossover, bindM. by rewrite one_item_draw.
Qed.

End OneItem.

(** ** Selection: what it returns and when it fails *)

(** A traversal whose function fails on one element with the only error it
    can give fails with that error. *)
Lemma traverse_some_undefined {A B} (f : A -> result B) (l : list A) e :
  Forall (fun x => (exists y, f x = Ok y) \/ f x = Err e) l ->
  Exists (fun x => f x = Err e) l ->
  traverse f l = Err e.
Proof.
  intros Hall Hex. induction Hall as [|x l Hx _ IH]; [by inv Hex|].
  simpl. destruct Hx as [[y Hy]| ->]; [|done].
  rewrite Hy. simpl. inv Hex; [congruence|].
  by rewrite IH.
Qed.

Section SelectionMore.

Context `{StdSort}.

Variable s : KnapsackSolver.

(** Whatever [naturalSelection] returns is the front of the sorted pool. *)
Lemma naturalSelection_front (pool selected : Population) :
  naturalSelection s pool = Ok selected ->
  0 <= popSize s <= Z.of_nat (length pool) /\
  selected = take (Z.to_nat (popSize s)) (std_sort (fitter s) pool).
Proof.
  unfold naturalSelection.
  destruct (if decide (2 <= length pool)%nat
            then traverse (fitness s) pool else Ok []) as [fs|e];
    [|discriminate]. cbn [bind].
  rewrite (Permutation_length (std_sort_perm _ (fitter s) pool)).
  destruct (decide _); [discriminate|].
  destruct (decide _); [|discriminate]. intros [= <-]. split; [lia|done].
Qed.

Lemma selection_takes_from_pool_aux (pool selected : Population) :
  naturalSelection s pool = Ok selected ->
  Z.of_nat (length selected) = popSize s /\
  (forall Q : Individual -> Prop, Forall Q pool -> Forall Q selected).
Proof.
  intros (HP & ->)%naturalSelection_front.
  pose proof (std_sort_perm _ (fitter s) pool) as Hperm.
  split.
  - rewrite length_take, (Permutation_length Hperm). lia.
  - intros Q HQ. apply Forall_take. by rewrite Hperm.
Qed.

(** X12. Selection never invents or alters an individual: whatever it
    returns is taken from the pool, each individual at most as often as
    the pool holds it. So every property of all individuals of the pool,
    their length for one, holds of all selected individuals. *)
Theorem selection_takes_from_pool (pool selected : Population) :
  naturalSelection s pool = Ok selected ->
  selected ⊆+ pool /\
  Z.of_nat (length selected) = popSize s /\
  (forall Q : Individual -> Prop, Forall Q pool -> Forall Q selected).
Proof.
  intros Hsel. split; [|by apply selection_takes_from_pool_aux].
  apply naturalSelection_front in Hsel as (_ & ->).
  rewrite <- (std_sort_perm _ (fitter s) pool) at 2.
  apply sublist_submseteq, sublist_take.
Qed.

(** X13. Elitism. For a pool of individuals of length N and a target size
    between 1 and the size of the pool, the first individual that
    selection returns belongs to the pool and is at least as fit as every
    individual of the pool. *)
Theorem selection_keeps_fittest (pool : Population) :
  1 <= popSize s <= Z.of_nat (length pool) ->
  Forall (fun ind => length ind = length (items s)) pool ->
  exists (best : Individual) (others : Population),
    naturalSelection s pool = Ok (best :: others) /\
    best ∈ pool /\
    (forall ind, ind ∈ pool -> fitness_ge s best ind).
Proof.
  intros HP Hlen.
  assert (Forall (fit_defined s) pool) as Hdef.
  { eapply Forall_impl; [exact Hlen|]. intros ind Hind. simpl in Hind.
    apply fitness_defined. lia. }
  destruct (naturalSelection_sorted s pool) as [Hsel _]; [lia|done|].
  pose proof (Permutation_length (std_sort_perm _ (fitter s) pool)) as Hl.
  destruct (take (Z.to_nat (popSize s)) (std_sort (fitter s) pool))
    as [|best others] eqn:Htake.
  { apply (f_equal length) in Htake. rewrite length_take in Htake.
    simpl in Htake. lia. }
  exists best, others. split; [done|]. split.
  - rewrite <- (std_sort_perm _ (fitter s) pool).
    apply (subseteq_take (Z.to_nat (popSize s))). rewrite Htake. left.
  - by apply (naturalSelection_head_fittest s pool others best).
Qed.

(** On a pool whose fitnesses are defined, selection is decided by the
    target size alone. *)
Lemma naturalSelection_by_size (pool : Population) :
  Forall (fit_defined s) pool ->
  naturalSelection s pool =
    if decide (popSize s < 0) then Err LengthError
    else if decide (popSize s <= Z.of_nat (length pool)) then
      Ok (take (Z.to_nat (popSize s)) (std_sort (fitter s) pool))
    else Err OutOfBounds.
Proof.
  intros Hdef. unfold naturalSelection.
  assert (exists fs, (if decide (2 <= length pool)%nat
                      then traverse (fitness s) pool else Ok []) = Ok fs)
    as [fs ->].
  { destruct (decide _); [|by eexists].
    destruct (traverse_defined (fitness s) pool Hdef) as [fs ->].
    by eexists. }
  cbn [bind].
  by rewrite (Permutation_length (std_sort_perm _ (fitter s) pool)).
Qed.

(** X14. On a pool of individuals of at least N genes, selection returns
    exactly when the target size lies between 0 and the size of the pool.
    A negative target size is a length error: the range handed to the
    result has a size above every possible vector size. A target size
    above the size of the pool takes the range past the end of the sorted
    pool. *)
Theorem selection_defined_iff (pool : Population) :
  Forall (fun ind => (length (items s) <= length ind)%nat) pool ->
  ((exists selected, naturalSelection s pool = Ok selected) <->
     0 <= popSize s <= Z.of_nat (length pool)) /\
  (popSize s < 0 -> naturalSelection s pool = Err LengthError) /\
  (Z.of_nat (length pool) < popSize s ->
   naturalSelection s pool = Err OutOfBounds).
Proof.
  intros Hlen.
  assert (Forall (fit_defined s) pool) as Hdef.
  { eapply Forall_impl; [exact Hlen|]. intros ind Hind. simpl in Hind.
    by apply fitness_defined. }
  rewrite (naturalSelection_by_size pool Hdef).
  split; [split|split].
  - intros [selected Hsel].
    destruct (decide _); [discriminate Hsel|].
    destruct (decide _); [lia|discriminate Hsel].
  - intros HP. destruct (decide _); [lia|].
    destruct (decide _); [by eexists|lia].
  - intros HP. by destruct (decide _); [|lia].
  - intros HP. destruct (decide _); [lia|]. by destruct (decide _); [lia|].
Qed.

(** X15. Selecting again from a selected generation keeps all of it: the
    second selection returns the same individuals, as a rearrangement. *)
Theorem selection_twice (pool selected : Population) :
  Forall (fun ind => length ind = length (items s)) pool ->
  naturalSelection s pool = Ok selected ->
  exists again,
    naturalSelection s selected = Ok again /\ again ≡ₚ selected.
Proof.
  intros Hlen Hsel.
  destruct (selection_takes_from_pool_aux pool selected Hsel)
    as (Hsize & Hall).
  assert (Forall (fit_defined s) selected) as Hdef.
  { apply Hall. eapply Forall_impl; [exact Hlen|].
    intros ind Hind. simpl in Hind. apply fitness_defined. lia. }
  destruct (naturalSelection_sorted s selected) as [-> _]; [lia|done|].
  eexists. split; [done|].
  rewrite take_ge; [apply std_sort_perm|].
  rewrite (Permutation_length (std_sort_perm _ (fitter s) selected)). lia.
Qed.

(** X16. Once there are two individuals to compare, one individual shorter
    than the catalog anywhere in the pool makes selection fail: the
    comparator reads it past its end. *)
Theorem selection_reads_short_individual (pool : Population) :
  Z.of_nat (length (items s)) <= INT_MAX ->
  (2 <= length pool)%nat ->
  Exists (fun ind => (length ind < length (items s))%nat) pool ->
  naturalSelection s pool = Err OutOfBounds.
Proof.
  intros Hmax Htwo Hshort. unfold naturalSelection.
  destruct (decide _); [|lia].
  rewrite (traverse_some_undefined _ _ OutOfBounds); [done| |].
  - apply Forall_forall. intros ind _.
    destruct (decide (length (items s) <= length ind)%nat).
    + left. by apply fitness_defined.
    + right. apply fitness_short; [done|lia].
  - eapply Exists_impl; [exact Hshort|]. intros ind Hind. simpl in Hind.
    by apply fitness_short.
Qed.

End SelectionMore.

Lemma selection_takes_from_pool_witness :
  let s := init_solver [MkItem 60 10; MkItem 100 20; MkItem 120 30] 50 2 1 in
  let pool := [[true; false; false]; [false; true; true];
               [true; true; true]; [false; false; true]] in
  let selected := [[false; true; true]; [false; false; true]] in
  selected ⊆+ pool /\
  Z.of_nat (length selected) = popSize s /\
  (forall Q : Individual -> Prop, Forall Q pool -> Forall Q selected).
Proof.
  intros s pool selected.
  exact (selection_takes_from_pool s pool selected eq_refl).
Defined.

Lemma selection_keeps_fittest_witness :
  let s := init_solver [MkItem 60 10; MkItem 100 20; MkItem 120 30] 50 2 1 in
  let pool := [[true; false; false]; [false; true; true];
               [true; true; true]; [false; false; true]] in
  exists (best : Individual) (others : Population),
    naturalSelection s pool = Ok (best :: others) /\
    best ∈ pool /\
    (forall ind, ind ∈ pool -> fitness_ge s best ind).
Proof.
  intros s pool. apply (selection_keeps_fittest s pool).
  - simpl. lia.
  - repeat constructor.
Defined.

Lemma selection_defined_iff_witness :
  let pool := [[true; false; false]; [false; true; true];
               [true; true; true]; [false; false; true]] in
  naturalSelection
    (init_solver [MkItem 60 10; MkItem 100 20; MkItem 120 30] 50 (-1) 1) pool =
    Err LengthError /\
  naturalSelection
    (init_solver [MkItem 60 10; MkItem 100 20; MkItem 120 30] 50 5 1) pool =
    Err OutOfBounds.
Proof.
  intros pool. split.
  - apply (selection_defined_iff
             (init_solver [MkItem 60 10; MkItem 100 20; MkItem 120 30]
                          50 (-1) 1) pool).
    + repeat constructor.
    + simpl. lia.
  - apply (selection_defined_iff
             (init_solver [MkItem 60 10; MkItem 100 20; MkItem 120 30]
                          50 5 1) pool).
    + repeat constructor.
    + simpl. lia.
Defined.

Lemma selection_twice_witness :
  let s := init_solver [MkItem 60 10; MkItem 100 20; MkItem 120 30] 50 2 1 in
  let pool := [[true; false; false]; [false; true; true];
               [true; true; true]; [false; false; true]] in
  let selected := [[false; true; true]; [false; false; true]] in
  exists again,
    naturalSelection s selected = Ok again /\ again ≡ₚ selected.
Proof.
  intros s pool selected. apply (selection_twice s pool selected).
  - repeat constructor.
  - reflexivity.
Defined.

Lemma selection_reads_short_individual_witness :
  let s := init_solver [MkItem 60 10; MkItem 100 20; MkItem 120 30] 50 1 1 in
  naturalSelection s [[true; false; false]; [true]] = Err OutOfBounds.
Proof.
  intros s. apply (selection_reads_short_individual s).
  - unfold INT_MAX. simpl. lia.
  - simpl. lia.
  - apply Exists_cons_tl, Exists_cons_hd. simpl. lia.
Defined.

(** ** Breeding: the size of the pool *)

Section BreedingMore.

Variable s : KnapsackSolver.

(** Whatever the loop of [breed] returns is the pool it started from with
    two children pushed for every individual. *)
Lemma breed_loop_pushes (pop rest newPop pool : Population) g g' :
  breed_loop s pop rest newPop g = Ok (pool, g') ->
  exists kids, pool = newPop ++ kids /\ length kids = (2 * length rest)%nat.
Proof.
  revert newPop g. induction rest as [|ind rest IH]; intros newPop g.
  { intros [= <- <-]. exists []. by rewrite app_nil_r. }
  cbn [breed_loop]. unfold bindM at 1.
  destruct (mutate s ind g) as [[mutant g1]|e]; [|discriminate].
  unfold bindM at 1.
  destruct (draw (populationDistribution s) g1) as [[j g2]|e]; [|discriminate].
  unfold bindM at 1.
  destruct (lift (vec_get pop j) g2) as [[other g3]|e]; [|discriminate].
  unfold bindM at 1.
  destruct (crossover s ind other g3) as [[child g4]|e]; [|discriminate].
  intros (kids & -> & Hkids)%IH.
  exists (mutant :: child :: kids). split.
  - by rewrite <- !app_assoc.
  - simpl. lia.
Qed.

(** X17. Whenever [breed] returns, its pool is the generation resized to
    3 * popSize (cut, or padded with empty individuals) followed by two
    children per individual of the generation: 3 * popSize + 2 * |pop|
    individuals, for a generation of any size and shape. *)
Theorem breed_pool_size (generation pool : Population) (g g' : Rng) :
  0 <= popSize s * 3 <= INT_MAX ->
  breed s generation g = Ok (pool, g') ->
  exists kids,
    pool = vec_resize [] (Z.to_nat (popSize s * 3)) generation ++ kids /\
    length kids = (2 * length generation)%nat /\
    Z.of_nat (length pool) = 3 * popSize s + 2 * Z.of_nat (length generation).
Proof.
  intros Hsize. unfold breed.
  rewrite to_int_id by (unfold in_int, INT_MIN, INT_MAX in *; lia).
  destruct (decide _); [lia|].
  intros (kids & -> & Hkids)%breed_loop_pushes.
  exists kids. split; [done|]. split; [done|].
  unfold vec_resize.
  rewrite !length_app, length_take, length_replicate. lia.
Qed.

(** X18. A negative population size makes [breed] fail for every
    generation: [resize] is asked for a size that, converted to
    [std::size_t], is above every possible vector size. *)
Theorem breed_negative_size (generation : Population) (g : Rng) :
  INT_MIN <= popSize s * 3 < 0 ->
  breed s generation g = Err LengthError.
Proof.
  intros Hsize. unfold breed.
  rewrite to_int_id by (unfold in_int, INT_MIN, INT_MAX in *; lia).
  destruct (decide _); [done|lia].
Qed.

(** X19. Bred from the empty generation, the pool is nothing but padding:
    3 * popSize empty individuals, and no number is drawn. *)
Theorem breed_empty_generation (g : Rng) :
  0 <= popSize s * 3 <= INT_MAX ->
  breed s [] g = Ok (replicate (Z.to_nat (popSize s * 3)) [], g).
Proof.
  intros Hsize. unfold breed.
  rewrite to_int_id by (unfold in_int, INT_MIN, INT_MAX in *; lia).
  destruct (decide _); [lia|].
  cbn [breed_loop]. unfold ret, vec_resize.
  by rewrite take_nil, Nat.sub_0_r.
Qed.

End BreedingMore.

(** X20. For a generation of popSize individuals of length N, [breed]
    returns for every oracle, and its pool is the generation, then
    2 * popSize empty individuals, then the children: for each individual
    in turn a mutant (one gene flipped) and a crossover child with an
    individual of the generation. The children have length N; the padding
    has not. *)
Theorem breed_pool_shape its cap pop maxit (generation : Population) (g : Rng) :
  (0 < length its)%nat -> Z.of_nat (length its) <= INT_MAX ->
  1 <= pop -> 3 * pop <= INT_MAX ->
  length generation = Z.to_nat pop ->
  Forall (fun ind => length ind = length its) generation ->
  exists kids g',
    breed (init_solver its cap pop maxit) generation g =
      Ok (generation ++ replicate (2 * length generation) [] ++ kids, g') /\
    offspring generation generation kids /\
    length kids = (2 * length generation)%nat /\
    Forall (fun ind => length ind = length its) kids.
Proof.
  intros Hgenes Hcatalog Hpop Hthree Hsize Hlen.
  destruct (breed_padded its cap pop maxit Hgenes Hcatalog
              ltac:(unfold INT_MAX in *; lia) generation g Hthree Hsize Hlen)
    as (kids & g' & Hbreed & Hoff).
  exists kids, g'. split; [done|]. split; [done|]. split.
  - by apply (offspring_length generation).
  - by apply (offspring_genes generation generation).
Qed.

Lemma breed_pool_size_witness :
  let s := init_solver [MkItem 60 10; MkItem 100 20; MkItem 120 30] 50 1 1 in
  exists kids,
    [[true; false; false]; []; []; [true; true; false]; [true; false; false]] =
      vec_resize [] 3 [[true; false; false]] ++ kids /\
    length kids = 2%nat /\
    Z.of_nat 5 = 3 * 1 + 2 * Z.of_nat 1.
Proof.
  intros s.
  assert (0 <= popSize s * 3 <= INT_MAX) as Hsize
    by (unfold INT_MAX; simpl; lia).
  exact (breed_pool_size s [[true; false; false]]
           [[true; false; false]; []; []; [true; true; false];
            [true; false; false]]
           (rng_of [1; 0; 2]) (advance (advance (advance (rng_of [1; 0; 2]))))
           Hsize eq_refl).
Defined.

Lemma breed_negative_size_witness :
  breed (init_solver [MkItem 60 10] 50 (-1) 1) [[true]] (rng_of []) =
    Err LengthError.
Proof.
  apply breed_negative_size. unfold INT_MIN. simpl. lia.
Defined.

Lemma breed_empty_generation_witness :
  breed (init_solver [MkItem 60 10] 50 2 1) [] (rng_of []) =
    Ok (replicate 6 [], rng_of []).
Proof.
  apply (breed_empty_generation (init_solver [MkItem 60 10] 50 2 1)).
  unfold INT_MAX. simpl. lia.
Defined.

Lemma breed_pool_shape_witness :
  exists kids g',
    breed (init_solver [MkItem 60 10; MkItem 100 20; MkItem 120 30] 50 1 1)
          [[true; false; false]] (rng_of [1; 0; 2]) =
      Ok ([[true; false; false]] ++ replicate 2 [] ++ kids, g') /\
    offspring [[true; false; false]] [[true; false; false]] kids /\
    length kids = 2%nat /\
    Forall (fun ind => length ind = 3%nat) kids.
Proof.
  apply (breed_pool_shape [MkItem 60 10; MkItem 100 20; MkItem 120 30] 50 1 1
           [[true; false; false]] (rng_of [1; 0; 2])).
  - simpl. lia.
  - unfold INT_MAX. simpl. lia.
  - lia.
  - unfold INT_MAX. lia.
  - reflexivity.
  - repeat constructor.
Defined.

(** ** The solver loop: when a run returns, and what *)

(** The loop of [generateInitialPop] pushes behind what it has. *)
Lemma generateInitialPop_loop_prefix s n acc g P g' :
  generateInitialPop_loop s n acc g = Ok (P, g') ->
  exists rest, P = acc ++ rest.
Proof.
  revert acc g. induction n as [|n IH]; intros acc g.
  { intros [= <- <-]. exists []. by rewrite app_nil_r. }
  cbn [generateInitialPop_loop]. unfold bindM.
  destruct (generateIndividual s g) as [[ind g1]|e]; [|discriminate].
  intros [rest ->]%IH. exists (ind :: rest). by rewrite <- app_assoc.
Qed.

(** X21. Over a non-empty catalog and with a population size of at least
    1, [solve] returns a selection exactly when it is asked for no
    iteration; the selection then has length N. With one iteration or
    more every run ends in the out-of-bounds read of the first
    selection. *)
Theorem solve_returns_iff `{StdSort} its cap pop maxit (g : Rng) :
  (0 < length its)%nat -> Z.of_nat (length its) <= INT_MAX ->
  1 <= pop -> 3 * pop <= INT_MAX ->
  let s := init_solver its cap pop maxit in
  ((exists r, solve s g = Ok r) <-> maxit <= 0) /\
  (maxit <= 0 ->
   exists ind g', solve s g = Ok (ind, g') /\ length ind = length its) /\
  (1 <= maxit -> solve s g = Err OutOfBounds).
Proof.
  intros Hgenes Hcatalog Hpop Hthree s.
  assert (maxit <= 0 ->
          exists ind g', solve s g = Ok (ind, g') /\ length ind = length its)
    as Hzero.
  { intros Hmaxit.
    destruct (generateInitialPop_length its cap pop maxit Hcatalog g)
      as (P & g' & HP & Hsize & Hlen).
    rewrite (solve_no_iteration s g P g' Hmaxit HP).
    destruct P as [|ind P]; [simpl in Hsize; lia|].
    exists ind, g'. split; [done|]. by apply Forall_cons in Hlen as [? _]. }
  assert (1 <= maxit -> solve s g = Err OutOfBounds) as Hmore.
  { intros Hmaxit. by apply solve_stops_at_selection. }
  split; [split|done].
  - intros [r Hr]. destruct (decide (maxit <= 0)); [done|].
    rewrite Hmore in Hr by lia. discriminate Hr.
  - intros (ind & g' & Hr & _)%Hzero. by eexists.
Qed.

(** X22. A run without iterations returns the individual that random
    generation produces first. For a catalog that fits [int] and a
    capacity >= 0 that individual has length N and is feasible, so its
    fitness is its selected value: the capacity check of [fitness] never
    zeroes it. *)
Theorem solve_without_iterations `{StdSort} its cap pop maxit (g : Rng) :
  fits_int its -> 0 <= cap -> 1 <= pop -> maxit <= 0 ->
  let s := init_solver its cap pop maxit in
  exists ind g1 g',
    generateIndividual s g = Ok (ind, g1) /\
    solve s g = Ok (ind, g') /\
    length ind = length its /\
    feasible s ind /\
    fitness s ind = Ok (selected_sum value its ind).
Proof.
  intros Hfit Hcap Hpop Hmaxit s. subst s.
  destruct (generateIndividual_feasible its cap pop maxit Hfit g Hcap)
    as (ind & g1 & Hind & Hlen & Hfeas).
  destruct (generateInitialPop_loop_all (fun _ => True)
              (init_solver its cap pop maxit)
              (Z.to_nat pop - 1) [ind] g1) as (P & g' & HP & _ & _).
  { intros g0.
    destruct (generateIndividual_feasible its cap pop maxit Hfit g0 Hcap)
      as (ind0 & g0' & -> & _). by eexists _, _. }
  { by repeat constructor. }
  assert (generateInitialPop (init_solver its cap pop maxit) g = Ok (P, g'))
    as Hgen.
  { unfold generateInitialPop. cbn [popSize init_solver].
    replace (Z.to_nat pop) with (S (Z.to_nat pop - 1)) by lia.
    cbn [generateInitialPop_loop]. unfold bindM. by rewrite Hind. }
  apply generateInitialPop_loop_prefix in HP as [rest ->].
  exists ind, g1, g'. split; [done|].
  split;
    [by rewrite (solve_no_iteration (init_solver its cap pop maxit) g _ g'
                   Hmaxit Hgen)|].
  split; [done|]. split; [done|].
  rewrite fitness_eq by done. cbn [items capacity init_solver].
  destruct (decide _); [lia|done].
Qed.

(** X23. The fitness of every individual of the initial population is
    defined and is its selected value, for a catalog that fits [int] and a
    capacity >= 0: generation and scoring agree on what is feasible. *)
Theorem initial_population_scores its cap pop maxit (g : Rng) :
  fits_int its -> 0 <= cap ->
  let s := init_solver its cap pop maxit in
  exists P g',
    generateInitialPop s g = Ok (P, g') /\
    Forall (fun ind => fitness s ind = Ok (selected_sum value its ind)) P.
Proof.
  intros Hfit Hcap s. subst s.
  destruct (generateInitialPop_loop_all
              (fun ind => fitness (init_solver its cap pop maxit) ind =
                            Ok (selected_sum value its ind))
              (init_solver its cap pop maxit) (Z.to_nat pop) [] g)
    as (P & g' & HP & _ & Hall); [|constructor|by exists P, g'].
  intros g0.
  destruct (generateIndividual_feasible its cap pop maxit Hfit g0 Hcap)
    as (ind & g1 & Hind & Hlen & Hfeas).
  exists ind, g1. split; [done|].
  rewrite fitness_eq by done. cbn [items capacity init_solver].
  destruct (decide _); [lia|done].
Qed.

Lemma solve_returns_iff_witness :
  let s := init_solver [MkItem 60 10; MkItem 100 20; MkItem 120 30] 50 2 0 in
  exists ind g',
    solve s (rng_of [1; 1; 1; 0; 1; 1]) = Ok (ind, g') /\ length ind = 3%nat.
Proof.
  intros s.
  apply (solve_returns_iff [MkItem 60 10; MkItem 100 20; MkItem 120 30]
           50 2 0 (rng_of [1; 1; 1; 0; 1; 1]));
    try (unfold INT_MAX; simpl; lia).
Defined.

Lemma solve_without_iterations_witness :
  let s := init_solver [MkItem 60 10; MkItem 100 20; MkItem 120 30] 50 2 0 in
  exists ind g1 g',
    generateIndividual s (rng_of [1; 1; 1; 0; 1; 1]) = Ok (ind, g1) /\
    solve s (rng_of [1; 1; 1; 0; 1; 1]) = Ok (ind, g') /\
    length ind = 3%nat /\
    feasible s ind /\
    fitness s ind =
      Ok (selected_sum value [MkItem 60 10; MkItem 100 20; MkItem 120 30] ind).
Proof.
  apply (solve_without_iterations
           [MkItem 60 10; MkItem 100 20; MkItem 120 30] 50 2 0
           (rng_of [1; 1; 1; 0; 1; 1])).
  - unfold fits_int, INT_MAX. simpl. lia.
  - lia.
  - lia.
  - lia.
Defined.

Lemma initial_population_scores_witness :
  let s := init_solver [MkItem 60 10; MkItem 100 20; MkItem 120 30] 50 2 0 in
  exists P g',
    generateInitialPop s (rng_of [1; 1; 1; 0; 1; 1]) = Ok (P, g') /\
    Forall (fun ind =>
              fitness s ind =
                Ok (selected_sum value
                      [MkItem 60 10; MkItem 100 20; MkItem 120 30] ind)) P.
Proof.
  apply (initial_population_scores
           [MkItem 60 10; MkItem 100 20; MkItem 120 30] 50 2 0
           (rng_of [1; 1; 1; 0; 1; 1])).
  - unfold fits_int, INT_MAX. simpl. lia.
  - lia.
Defined.

(** ** The sample problem *)

Lemma sampleItem_range value_first g :
  exists it, sampleItem value_first g = Ok (it, advance (advance g)) /\
             sample_ok it.
Proof.
  unfold sampleItem, bindM.
  destruct (draw_in_range (MkDist 1 100) g) as (x & -> & Hx & _);
    [simpl; lia|].
  destruct (draw_in_range (MkDist 1 100) (advance g)) as (y & -> & Hy & _);
    [simpl; lia|].
  simpl in Hx, Hy. eexists. split; [done|].
  unfold sample_ok. destruct value_first; simpl; lia.
Qed.

Lemma generateKnapsackProblem_loop_range value_first n acc g :
  Forall sample_ok acc ->
  exists items g',
    generateKnapsackProblem_loop value_first n acc g = Ok (items, g') /\
    length items = (length acc + n)%nat /\
    Forall sample_ok items.
Proof.
  revert acc g. induction n as [|n IH]; intros acc g Hacc.
  { exists acc, g. split; [done|]. split; [lia|done]. }
  cbn [generateKnapsackProblem_loop]. unfold bindM.
  destruct (sampleItem_range value_first g) as (it & -> & Hit).
  destruct (IH (acc ++ [it]) (advance (advance g)))
    as (items & g' & -> & Hlen & Hall).
  { apply Forall_app. split; [done|]. constructor; [done|constructor]. }
  exists items, g'. split; [done|]. split; [|done].
  rewrite Hlen, length_app. simpl. lia.
Qed.

Lemma abs_total_samples f (its : list Item) (c : Z) :
  Forall (fun it => Z.abs (f it) <= c) its ->
  abs_total f its <= c * Z.of_nat (length its).
Proof.
  induction 1 as [|it its Hit _ IH]; simpl; lia.
Qed.

(** X24. [generateKnapsackProblem] returns, for every oracle and in either
    order of evaluation of the two draws, exactly [size] items (none for a
    size <= 0), each with a value and a weight between 1 and 100. *)
Theorem generateKnapsackProblem_well_formed value_first (size : Z) (rng : Rng) :
  exists items,
    generateKnapsackProblem value_first size rng = Ok items /\
    length items = Z.to_nat size /\
    Forall (fun it => 1 <= value it <= 100 /\ 1 <= weight it <= 100) items.
Proof.
  unfold generateKnapsackProblem.
  destruct (generateKnapsackProblem_loop_range value_first (Z.to_nat size)
              [] rng) as (items & g' & -> & Hlen & Hall); [constructor|].
  by exists items.
Qed.

(** X25. A generated problem of at most 21474836 items fits the [int]
    arithmetic of the solver: no total of values or weights over a
    selection can wrap around, so the results on fitness and on random
    individuals apply to it. *)
Theorem generateKnapsackProblem_fits_int value_first size rng items :
  size <= 21474836 ->
  generateKnapsackProblem value_first size rng = Ok items ->
  fits_int items.
Proof.
  intros Hsize Hgen. unfold generateKnapsackProblem in Hgen.
  destruct (generateKnapsackProblem_loop_range value_first (Z.to_nat size)
              [] rng) as (items' & g' & Hloop & Hlen & Hall); [constructor|].
  rewrite Hloop in Hgen. injection Hgen as <-. simpl in Hlen.
  assert (Forall (fun it => Z.abs (value it) <= 100) items') as Hv.
  { eapply Forall_impl; [exact Hall|]. intros it [Hit _]. lia. }
  assert (Forall (fun it => Z.abs (weight it) <= 100) items') as Hw.
  { eapply Forall_impl; [exact Hall|]. intros it [_ Hit]. lia. }
  apply abs_total_samples in Hv, Hw.
  unfold fits_int, INT_MAX. lia.
Qed.

Lemma generateKnapsackProblem_fits_int_witness :
  fits_int [MkItem 8 43; MkItem 1 100].
Proof.
  apply (generateKnapsackProblem_fits_int true 2 (rng_of [7; 42; 100; 99])).
  - lia.
  - reflexivity.
Defined.

(** ** The report of [main] *)

Lemma selected_sum_nil_r f its : selected_sum f its [] = 0.
Proof. by destruct its. Qed.

Lemma chosen_nil_r its : chosen its [] = [].
Proof. by destruct its. Qed.

Lemma report_loop (items : list Item) (solution : Individual) n k acc :
  (k + n = length solution)%nat ->
  (length solution <= length items)%nat ->
  Z.abs acc.1.2 + abs_total value (drop k items) <= INT_MAX ->
  Z.abs acc.2 + abs_total weight (drop k items) <= INT_MAX ->
  for_range n (Z.of_nat k) (report_body items solution) acc =
    Ok (acc.1.1 ++ chosen (drop k items) (drop k solution),
        acc.1.2 + selected_sum value (drop k items) (drop k solution),
        acc.2 + selected_sum weight (drop k items) (drop k solution)).
Proof.
  revert k acc. induction n as [|n IH]; intros k [[printed tv] tw] Hk Hlen Hv Hw;
    cbn [fst snd] in *.
  { rewrite (drop_ge solution) by lia. cbn [for_range].
    rewrite chosen_nil_r, !selected_sum_nil_r, app_nil_r, !Z.add_0_r.
    done. }
  destruct (lookup_lt_is_Some_2 items k) as [it Hit]; [lia|].
  destruct (lookup_lt_is_Some_2 solution k) as [b Hb]; [lia|].
  cbn [for_range]. unfold report_body at 1.
  rewrite (vec_get_lookup _ _ _ Hb). cbn [bind].
  rewrite (drop_S _ _ _ Hit) in Hv, Hw |- *. rewrite (drop_S _ _ _ Hb).
  cbn [abs_total chosen selected_sum] in Hv, Hw |- *.
  pose proof (abs_total_nonneg value (drop (S k) items)).
  pose proof (abs_total_nonneg weight (drop (S k) items)).
  replace (Z.of_nat k + 1) with (Z.of_nat (S k)) by lia.
  destruct b.
  - rewrite (vec_get_lookup _ _ _ Hit). cbn [bind fst snd].
    rewrite !to_int_id by (unfold in_int, INT_MIN, INT_MAX in *; lia).
    rewrite IH by (cbn [fst snd]; lia). cbn [fst snd].
    by rewrite <- app_assoc, <- !Z.add_assoc.
  - cbn [bind]. rewrite IH by (cbn [fst snd]; lia). cbn [fst snd].
    by rewrite !Z.add_0_l.
Qed.

(** X26. For a selection no longer than the catalog (and a catalog that
    fits [int]) the report lists the items of the selected genes in
    catalog order and totals their values and their weights. For a
    selection of length N the reported value is the fitness the solver
    ranked it by exactly when the reported weight is within capacity;
    otherwise that fitness is 0. *)
Theorem report_totals (s : KnapsackSolver) (solution : Individual) :
  fits_int (items s) ->
  (length solution <= length (items s))%nat ->
  report (items s) solution =
    Ok (chosen (items s) solution,
        selected_sum value (items s) solution,
        selected_sum weight (items s) solution) /\
  (length solution = length (items s) ->
   fitness s solution =
     Ok (if decide (selected_sum weight (items s) solution > capacity s)
         then 0 else selected_sum value (items s) solution)).
Proof.
  intros Hfit Hlen. split; [|by apply fitness_eq].
  destruct Hfit as (_ & Hv & Hw). unfold report.
  pose proof (report_loop (items s) solution (length solution) 0 ([], 0, 0))
    as Hloop.
  change (Z.of_nat 0) with 0 in Hloop. rewrite !drop_0 in Hloop.
  cbn [fst snd] in Hloop. rewrite Hloop by lia. done.
Qed.

Lemma report_totals_witness :
  let s := init_solver [MkItem 60 10; MkItem 100 20; MkItem 120 30] 50 10 200 in
  report (items s) [false; true; true] =
    Ok ([MkItem 100 20; MkItem 120 30], 220, 50) /\
  (length [false; true; true] = length (items s) ->
   fitness s [false; true; true] = Ok 220).
Proof.
  intros s. apply (report_totals s [false; true; true]).
  - unfold fits_int, INT_MAX. simpl. lia.
  - simpl. lia.
Defined.

(** X27. The program as it stands prints nothing: for every seed of the
    problem generator, every seed of the solver, either order of the two
    draws of an item and every sort, [main] ends in the out-of-bounds read
    of the first selection (50 items, a population of 30 and 50000
    iterations), before its first output. *)
Theorem main_stops_before_output `{StdSort} value_first
    (problem_rng solver_rng : Rng) :
  main value_first problem_rng solver_rng = Err OutOfBounds.
Proof.
  unfold main, generateKnapsackProblem.
  destruct (generateKnapsackProblem_loop_range value_first (Z.to_nat 50)
              [] problem_rng) as (items & g' & -> & Hlen & _); [constructor|].
  cbn [bind construct]. simpl in Hlen.
  rewrite solve_stops_at_selection; [done|..];
    rewrite ?Hlen; unfold INT_MAX; lia.
Qed.

(** * The best fitness along the solver loop *)


Section BestFitness.

Context `{StdSort}.

Variable s : KnapsackSolver.






End BestFitness.

